(** * WriteSet: the hashed redo log of the RingSTM submission

    A shallow embedding of [Project1/submission/RingSTM/tm/WriteSet.hpp]
    and the properties of its index, entry list and version counter.

    Conventions.
    - [size_t] and [unsigned long long] are 64-bit words: a [Z] in
      [0, 2^64) with the wrap-around written out ([wrap]).
    - An address (a pointer in the C++ code) is the 64-bit integer it
      converts to.  The memory is byte-addressed: the write of an entry
      stores the eight bytes of its value from the entry's address on, least
      significant byte first, and a read takes the eight bytes from the
      address on.  Nothing in the code keeps addresses aligned, so two words
      whose addresses are less than 8 apart share bytes.
    - A C++ call that never returns (a probe loop that cannot leave a full
      index) or that reads or writes outside an array has result [None]. *)

From stdpp Require Import base option list.
From Stdlib Require Import ZArith Lia.

Local Open Scope Z_scope.

(** ** Machine words *)

Definition wrap (x : Z) : Z := x mod 2 ^ 64.

(** ** Memory the buffered writes are published to

    A map from byte addresses to bytes. *)

Definition memory : Type := Z -> Z.

(** Byte [i] of the 64-bit word [v], byte 0 the least significant. *)
Definition byte_of (v i : Z) : Z := (v / 2 ^ (8 * i)) mod 256.

(** The 64-bit word read at the byte address [a]. *)
Definition load (m : memory) (a : Z) : Z :=
  m a + m (a + 1) * 2 ^ 8 + m (a + 2) * 2 ^ 16 + m (a + 3) * 2 ^ 24
  + m (a + 4) * 2 ^ 32 + m (a + 5) * 2 ^ 40 + m (a + 6) * 2 ^ 48
  + m (a + 7) * 2 ^ 56.

(** The 64-bit word [v] written at the byte address [a]: the bytes [a] to
    [a + 7] change. *)
Definition store (m : memory) (a v : Z) : memory :=
  fun x => if (a <=? x) && (x <? a + 8) then byte_of v (x - a) else m x.

(** The words at [a] and [b] share no byte. *)
Definition apart (a b : Z) : Prop := 8 <= Z.abs (a - b).

(** No two words at the addresses of the list share a byte. *)
Fixpoint pairwise_apart (l : list Z) : Prop :=
  match l with
  | [] => True
  | a :: l => Forall (fun b => apart b a) l /\ pairwise_apart l
  end.

(** ** struct WordLoggingWriteSetEntry *)

Module WriteSetEntry.

Record t : Type := mk { addr : Z; val : Z }.

(** [update(rhs)]: [val = rhs.val], the address is kept. *)
Definition update (e rhs : t) : t := mk (addr e) (val rhs).

(** [writeback() const]: stores [val] into the 64-bit word at [addr]. *)
Definition writeback (e : t) (m : memory) : memory :=
  store m (addr e) (val e).

(** [validate() const]: the 64-bit word at [addr] equals [val]. *)
Definition validate (e : t) (m : memory) : bool :=
  load m (addr e) =? val e.

End WriteSetEntry.

(** ** struct index_t *)

Module index_t.

Record t : Type := mk { version : Z; address : Z; index : Z }.

(** [index_t() : version(0), address(NULL), index(0) { }] *)
Definition init : t := mk 0 0 0.

End index_t.

(** ** class WriteSet

    The field [list] of the class is [list_] here. *)

Record WriteSet : Type := mkWriteSet {
  index    : list index_t.t;        (* hash entries *)
  shift    : Z;                     (* for the hash function *)
  ilength  : Z;                     (* max size of hash *)
  version  : Z;                     (* version for fast clearing *)
  list_    : list WriteSetEntry.t;  (* the array of actual data *)
  capacity : Z;                     (* max array size *)
  lsize    : Z                      (* elements in the array *)
}.

Definition set_index (ws : WriteSet) (t : list index_t.t) : WriteSet :=
  mkWriteSet t (shift ws) (ilength ws) (version ws)
             (list_ ws) (capacity ws) (lsize ws).

Definition set_version (ws : WriteSet) (v : Z) : WriteSet :=
  mkWriteSet (index ws) (shift ws) (ilength ws) v
             (list_ ws) (capacity ws) (lsize ws).

Definition set_list (ws : WriteSet) (l : list WriteSetEntry.t) : WriteSet :=
  mkWriteSet (index ws) (shift ws) (ilength ws) (version ws)
             l (capacity ws) (lsize ws).

Definition set_lsize (ws : WriteSet) (n : Z) : WriteSet :=
  mkWriteSet (index ws) (shift ws) (ilength ws) (version ws)
             (list_ ws) (capacity ws) n.

(** [hash]: the product is an [unsigned long long]; the mask keeps its low
    32 bits and the shift keeps the top bits of that 32-bit word. *)
Definition hash (sh : Z) (key : Z) : Z :=
  let s := 2654435769 in
  let r := wrap (key * s) in
  Z.shiftr (Z.land r 0xFFFFFFFF) sh.

(** [h = (h + 1) % ilength] *)
Definition next (ilength h : Z) : Z := wrap (h + 1) mod ilength.

(** A slot is live when its version is the current one. *)
Definition live (v : Z) (s : index_t.t) : bool := index_t.version s =? v.

(** ** find

    Every unit of fuel is one evaluation of the loop condition.  The probe
    visits [h], [h+1], ... modulo [ilength]; after [ilength] evaluations it
    has seen every slot live and different from the key, and the C++ loop
    never exits. *)

Fixpoint find_loop (fuel : nat) (ws : WriteSet) (log : WriteSetEntry.t)
    (h : Z) : option (bool * WriteSetEntry.t) :=
  match fuel with
  | O => None
  | S fuel =>
      s ← index ws !! Z.to_nat h;
      if live (version ws) s then
        if negb (index_t.address s =? WriteSetEntry.addr log) then
          find_loop fuel ws log (next (ilength ws) h)
        else
          e ← list_ ws !! Z.to_nat (index_t.index s);
          Some (true, WriteSetEntry.mk (WriteSetEntry.addr log)
                                       (WriteSetEntry.val e))
      else Some (false, log)
  end.

Definition find (ws : WriteSet) (log : WriteSetEntry.t)
    : option (bool * WriteSetEntry.t) :=
  find_loop (Z.to_nat (ilength ws)) ws log
            (hash (shift ws) (WriteSetEntry.addr log)).

(** ** The iterator interface: [begin()] .. [end()] is [list .. list+lsize] *)

Definition entries (ws : WriteSet) : list WriteSetEntry.t :=
  take (Z.to_nat (lsize ws)) (list_ ws).

(** ** writeback (STM_PROTECT_STACK is not defined: no exclusion region) *)

Fixpoint writeback_loop (es : list WriteSetEntry.t) (m : memory) : memory :=
  match es with
  | [] => m
  | i :: es => writeback_loop es (WriteSetEntry.writeback i m)
  end.

Definition writeback (ws : WriteSet) (m : memory) : memory :=
  writeback_loop (entries ws) m.

(** ** validate *)

Fixpoint validate_loop (es : list WriteSetEntry.t) (m : memory) : bool :=
  match es with
  | [] => true
  | i :: es =>
      if negb (WriteSetEntry.validate i m) then false else validate_loop es m
  end.

Definition validate (ws : WriteSet) (m : memory) : bool :=
  validate_loop (entries ws) m.

(** ** rollback (STM_ABORT_ON_THROW is not defined) *)

Definition rollback (ws : WriteSet) (m : memory) : WriteSet * memory := (ws, m).

(** ** size *)

Definition size (ws : WriteSet) : Z := lsize ws.

(** ** Functions declared in the header and defined in another file *)

(** Modelled from the spec: [doubleIndexLength] is only declared in the
    header.  The spec has the index capacity a power of two that the hash
    is shifted down to fit, and a rebuild that doubles it: one bit less is
    shifted out and the capacity is twice as large. *)
Definition doubleIndexLength (ws : WriteSet) : WriteSet :=
  mkWriteSet (index ws) (wrap (shift ws - 1)) (wrap (2 * ilength ws))
             (version ws) (list_ ws) (capacity ws) (lsize ws).

(** Modelled from the spec: [resize] is only declared in the header.  The
    entry list grows by doubling and the reallocation keeps the existing
    entries and their order; the new cells are not initialised in C++ and
    hold a zero entry here. *)
Definition resize (ws : WriteSet) : WriteSet :=
  mkWriteSet (index ws) (shift ws) (ilength ws) (version ws)
             (list_ ws ++ replicate (Z.to_nat (capacity ws))
                                    (WriteSetEntry.mk 0 0))
             (wrap (capacity ws * 2)) (lsize ws).

(** The probe of a rebuild: the first slot from [h] that is not live. *)
Fixpoint rebuild_probe (fuel : nat) (ws : WriteSet) (h : Z) : option Z :=
  match fuel with
  | O => None
  | S fuel =>
      s ← index ws !! Z.to_nat h;
      if live (version ws) s then rebuild_probe fuel ws (next (ilength ws) h)
      else Some h
  end.

Fixpoint rebuild_loop (es : list WriteSetEntry.t) (i : Z) (ws : WriteSet)
    : option WriteSet :=
  match es with
  | [] => Some ws
  | l :: es =>
      h ← rebuild_probe (Z.to_nat (ilength ws)) ws
            (hash (shift ws) (WriteSetEntry.addr l));
      rebuild_loop es (wrap (i + 1))
        (set_index ws
           (<[Z.to_nat h := index_t.mk (version ws) (WriteSetEntry.addr l) i]>
              (index ws)))
  end.

(** Modelled from the spec: [rebuild] is only declared in the header.  The
    spec: double the capacity, allocate a fresh table, reset the version
    baseline to 1, and reinsert every currently-live entry by recomputing
    its hash against the new capacity and shift.  The live entries are the
    entries of the list in use, [begin()] to [end()], as in [writeback] and
    [validate]; each one is bound, in insertion order, in the first slot of
    its probe sequence that is not live. *)
Definition rebuild (ws : WriteSet) : option WriteSet :=
  let ws := doubleIndexLength ws in
  let ws := set_index ws (replicate (Z.to_nat (ilength ws)) index_t.init) in
  let ws := set_version ws 1 in
  rebuild_loop (entries ws) 0 ws.

(** Modelled from the spec: [reset_internal] is only declared in the header.
    It is the full physical clear of the index taken on a version overflow:
    every slot is as freshly allocated and the version is back at the
    baseline 1 of a fresh table, so that no slot is live. *)
Definition reset_internal (ws : WriteSet) : WriteSet :=
  set_version
    (set_index ws (replicate (Z.to_nat (ilength ws)) index_t.init)) 1.

(** The index capacity of the constructor: doubled until three times the
    initial capacity fits. *)
Fixpoint grow_index (fuel : nat) (ws : WriteSet) (initial_capacity : Z)
    : WriteSet :=
  match fuel with
  | O => ws
  | S fuel =>
      if ilength ws <? wrap (3 * initial_capacity)
      then grow_index fuel (doubleIndexLength ws) initial_capacity
      else ws
  end.

(** Modelled from the spec: the constructor is only declared in the header.
    It takes the initial capacity of the entry list and derives the index
    capacity from it with the load factor 3 of [insert] (capacity 4 gives
    an index of 16); the version starts at the baseline 1 and nothing is
    buffered. *)
Definition new_WriteSet (initial_capacity : Z) : WriteSet :=
  let ws :=
    grow_index 32 (mkWriteSet [] 32 1 1 [] initial_capacity 0)
               initial_capacity in
  set_list
    (set_index ws (replicate (Z.to_nat (ilength ws)) index_t.init))
    (replicate (Z.to_nat initial_capacity) (WriteSetEntry.mk 0 0)).

(** ** insert *)

Definition insert_new (ws : WriteSet) (log : WriteSetEntry.t) (h : Z)
    : option (WriteSet * bool) :=
  (* add the log to the list *)
  if negb (lsize ws <? Z.of_nat (length (list_ ws))) then None else
  let ws := set_list ws (<[Z.to_nat (lsize ws) := log]> (list_ ws)) in
  (* update the index *)
  let ws :=
    set_index ws
      (<[Z.to_nat h := index_t.mk (version ws) (WriteSetEntry.addr log)
                                  (lsize ws)]> (index ws)) in
  (* update the end of the list *)
  let ws := set_lsize ws (wrap (lsize ws + 1)) in
  (* resize the list if needed *)
  let ws := if lsize ws =? capacity ws then resize ws else ws in
  (* if we reach our load-factor *)
  ws ← (if wrap (lsize ws * 3) >=? ilength ws then rebuild ws else Some ws);
  Some (ws, false).

Fixpoint insert_loop (fuel : nat) (ws : WriteSet) (log : WriteSetEntry.t)
    (h : Z) : option (WriteSet * bool) :=
  match fuel with
  | O => None
  | S fuel =>
      s ← index ws !! Z.to_nat h;
      if live (version ws) s then
        if negb (index_t.address s =? WriteSetEntry.addr log) then
          insert_loop fuel ws log (next (ilength ws) h)
        else
          e ← list_ ws !! Z.to_nat (index_t.index s);
          Some (set_list ws (<[Z.to_nat (index_t.index s) :=
                                 WriteSetEntry.update e log]> (list_ ws)),
                true)
      else insert_new ws log h
  end.

Definition insert (ws : WriteSet) (log : WriteSetEntry.t)
    : option (WriteSet * bool) :=
  insert_loop (Z.to_nat (ilength ws)) ws log
              (hash (shift ws) (WriteSetEntry.addr log)).

(** ** remove

    After [index[h].version--] the loop condition is evaluated once more on
    the same slot, hence one more unit of fuel than a probe needs. *)

Fixpoint remove_loop (fuel : nat) (ws : WriteSet) (log : WriteSetEntry.t)
    (h : Z) : option WriteSet :=
  match fuel with
  | O => None
  | S fuel =>
      s ← index ws !! Z.to_nat h;
      if live (version ws) s then
        if negb (index_t.address s =? WriteSetEntry.addr log) then
          remove_loop fuel ws log (next (ilength ws) h)
        else
          remove_loop fuel
            (set_index ws
               (<[Z.to_nat h :=
                    index_t.mk (wrap (index_t.version s - 1))
                               (index_t.address s) (index_t.index s)]>
                  (index ws)))
            log h
      else Some ws
  end.

Definition remove (ws : WriteSet) (log : WriteSetEntry.t) : option WriteSet :=
  remove_loop (S (Z.to_nat (ilength ws))) ws log
              (hash (shift ws) (WriteSetEntry.addr log)).

(** ** reset *)

Definition reset (ws : WriteSet) : WriteSet :=
  let ws := set_lsize ws 0 in
  let ws := set_version ws (wrap (version ws + 1)) in
  (* check overflow *)
  if negb (version ws =? 0) then ws else reset_internal ws.


(** ** The stores of a writeback, in the order they are performed *)

Fixpoint writeback_stores (es : list WriteSetEntry.t) : list (Z * Z) :=
  match es with
  | [] => []
  | i :: es => (WriteSetEntry.addr i, WriteSetEntry.val i) :: writeback_stores es
  end.

Definition replay (m : memory) (ss : list (Z * Z)) : memory :=
  fold_left (fun m s => store m (fst s) (snd s)) ss m.

(** ** Sequences of operations of one attempt *)

Inductive op : Type :=
| Insert (a v : Z)
| Find (a : Z)
| Remove (a : Z).

(** The state after an operation and whether it appended an entry. *)
Definition step (ws : WriteSet) (o : op) : option (WriteSet * bool) :=
  match o with
  | Insert a v =>
      r ← insert ws (WriteSetEntry.mk a v); Some (fst r, negb (snd r))
  | Find a => _ ← find ws (WriteSetEntry.mk a 0); Some (ws, false)
  | Remove a => ws' ← remove ws (WriteSetEntry.mk a 0); Some (ws', false)
  end.

(** The final state and the number of operations that appended an entry. *)
Fixpoint run (ws : WriteSet) (ops : list op) : option (WriteSet * Z) :=
  match ops with
  | [] => Some (ws, 0)
  | o :: ops =>
      match step ws o with
      | None => None
      | Some (ws', appended) =>
          match run ws' ops with
          | None => None
          | Some (ws'', n) => Some (ws'', (if appended then 1 else 0) + n)
          end
      end
  end.

Definition is_remove (o : op) : bool :=
  match o with Remove _ => true | _ => false end.

Fixpoint inserted (ops : list op) : list Z :=
  match ops with
  | [] => []
  | Insert a _ :: ops => a :: inserted ops
  | _ :: ops => inserted ops
  end.

(** The addresses bound by a live slot of the index. *)
Definition live_addresses (ws : WriteSet) : list Z :=
  remove_dups
    (index_t.address <$> filter (fun s => live (version ws) s = true) (index ws)).

(** ** The hash as the spec words it

    The top bits of the whole 64-bit product, as many as the index
    capacity [2 ^ (32 - sh)] has. *)
Definition hash_high_bits (sh : Z) (key : Z) : Z :=
  Z.shiftr (wrap (key * 2654435769)) (32 + sh).

(** ** The probe sequence shared by find, insert and remove *)

Inductive slot_result : Type :=
| Hit (h : Z)     (* a live slot that holds the key *)
| Free (h : Z).   (* the first slot that is not live *)

Fixpoint probe (fuel : nat) (t : list index_t.t) (n v key h : Z)
    : option slot_result :=
  match fuel with
  | O => None
  | S fuel =>
      s ← t !! Z.to_nat h;
      if live v s then
        if negb (index_t.address s =? key) then probe fuel t n v key (next n h)
        else Some (Hit h)
      else Some (Free h)
  end.

Definition lookup_slot (ws : WriteSet) (key : Z) : option slot_result :=
  probe (Z.to_nat (ilength ws)) (index ws) (ilength ws) (version ws) key
        (hash (shift ws) key).

Definition live_count (v : Z) (t : list index_t.t) : nat :=
  length (filter (fun s => live v s = true) t).

(** ** Well-formed write sets *)

(** Every live slot points at an entry in use that has the slot's address. *)
Definition slots_sound (v : Z) (t : list index_t.t)
    (es : list WriteSetEntry.t) : Prop :=
  forall (j : nat) (s : index_t.t),
    t !! j = Some s -> live v s = true ->
    0 <= index_t.index s /\
    exists e, es !! Z.to_nat (index_t.index s) = Some e /\
              WriteSetEntry.addr e = index_t.address s.

Record Inv (ws : WriteSet) : Prop := mkInv {
  inv_shift : 0 <= shift ws <= 30;
  inv_ilength : ilength ws = 2 ^ (32 - shift ws);
  inv_index : Z.of_nat (length (index ws)) = ilength ws;
  inv_version : 1 <= version ws < 2 ^ 64;
  inv_slots : Forall (fun s => 0 <= index_t.version s <= version ws) (index ws);
  inv_capacity : Z.of_nat (length (list_ ws)) = capacity ws;
  inv_lsize : 0 <= lsize ws < capacity ws;
  inv_load : lsize ws * 3 < ilength ws;
  inv_live : Z.of_nat (live_count (version ws) (index ws)) <= lsize ws;
  inv_sound : slots_sound (version ws) (index ws) (entries ws)
}.

(** The index can still be doubled: the hash takes its bits from a 32-bit
    word, so the index has at most [2 ^ 32] slots. *)
Definition can_grow (ws : WriteSet) : Prop := 3 * (lsize ws + 1) < 2 ^ 32.

(** Every entry in use is found by the probe of its address, in the slot
    that points at it. *)
Definition reach (ws : WriteSet) : Prop :=
  forall (k : nat) (e : WriteSetEntry.t),
    entries ws !! k = Some e ->
    exists h s,
      lookup_slot ws (WriteSetEntry.addr e) = Some (Hit h) /\
      index ws !! Z.to_nat h = Some s /\
      index_t.index s = Z.of_nat k.

(** After a rebuild the probe of an address finds the earliest entry in use
    that has this address. *)
Definition first_reach (ws : WriteSet) (es : list WriteSetEntry.t) : Prop :=
  forall (k : nat) (e : WriteSetEntry.t),
    es !! k = Some e ->
    exists h s (k0 : nat) e0,
      lookup_slot ws (WriteSetEntry.addr e) = Some (Hit h) /\
      index ws !! Z.to_nat h = Some s /\
      index_t.index s = Z.of_nat k0 /\
      es !! k0 = Some e0 /\
      WriteSetEntry.addr e0 = WriteSetEntry.addr e /\
      forall (j : nat) e', (j < k0)%nat -> es !! j = Some e' ->
                           WriteSetEntry.addr e' <> WriteSetEntry.addr e.

(** ** Auxiliary definitions of the proofs *)

(** The slot a probe ended in. *)
Definition slot_of (r : slot_result) : Z :=
  match r with Hit h => h | Free h => h end.

(** The state of the loop of a rebuild once the entries [done] are bound. *)
Record rebuilding (ws : WriteSet) (bound : list WriteSetEntry.t) : Prop := {
  rb_shift : 0 <= shift ws <= 30;
  rb_ilength : ilength ws = 2 ^ (32 - shift ws);
  rb_index : Z.of_nat (length (index ws)) = ilength ws;
  rb_version : 1 <= version ws < 2 ^ 64;
  rb_slots : Forall (fun s => 0 <= index_t.version s <= version ws) (index ws);
  rb_live : live_count (version ws) (index ws) = length bound;
  rb_sound : slots_sound (version ws) (index ws) bound;
  rb_first : first_reach ws bound
}.

(** The addresses of the entries in use. *)
Definition addresses (ws : WriteSet) : list Z :=
  WriteSetEntry.addr <$> entries ws.

(** The state after a sequence of operations (the start state when a call
    of the sequence does not return). *)
Definition exec (ws : WriteSet) (ops : list op) : WriteSet :=
  match run ws ops with
  | Some (ws', _) => ws'
  | None => ws
  end.

(** ** Definitions of the further properties *)

(** The value of the last insert at [a] in a sequence of operations. *)
Fixpoint last_write (ops : list op) (a : Z) : option Z :=
  match ops with
  | [] => None
  | o :: ops =>
      match last_write ops a with
      | Some w => Some w
      | None =>
          match o with
          | Insert a' v => if a' =? a then Some v else None
          | _ => None
          end
      end
  end.

(** The address of an insert is 8-byte aligned and its value a 64-bit
    word. *)
Definition word_op (o : op) : Prop :=
  match o with
  | Insert a v => a mod 8 = 0 /\ 0 <= v < 2 ^ 64
  | _ => True
  end.

(** The value of the last entry, in list order, that has the address [a]. *)
Fixpoint last_value (es : list WriteSetEntry.t) (a : Z) : option Z :=
  match es with
  | [] => None
  | e :: es =>
      match last_value es a with
      | Some v => Some v
      | None =>
          if WriteSetEntry.addr e =? a then Some (WriteSetEntry.val e)
          else None
      end
  end.

(** An entry in use binds the address [a] to the value [v]. *)
Definition binds (ws : WriteSet) (a v : Z) : Prop :=
  exists k : nat, entries ws !! k = Some (WriteSetEntry.mk a v).

(** * Words and the probe step *)

Lemma wrap_small x : 0 <= x < 2 ^ 64 -> wrap x = x.
Proof. intros H. unfold wrap. apply Z.mod_small. exact H. Qed.

Lemma wrap_range x : 0 <= wrap x < 2 ^ 64.
Proof. unfold wrap. apply Z.mod_pos_bound. lia. Qed.

Lemma wrap_pred_neq v : wrap (v - 1) <> v.
Proof.
  unfold wrap. intros H.
  assert (Hr : 0 <= v < 2 ^ 64) by (rewrite <- H; apply Z.mod_pos_bound; lia).
  destruct (Z.eq_dec v 0) as [-> | Hv].
  - vm_compute in H. discriminate.
  - rewrite Z.mod_small in H by lia. lia.
Qed.

Lemma next_range n h : 0 < n -> 0 <= next n h < n.
Proof. intros Hn. unfold next. apply Z.mod_pos_bound. exact Hn. Qed.

(** * The loops of find, insert and remove follow the probe *)

Lemma find_loop_probe fuel ws log h :
  find_loop fuel ws log h =
  match probe fuel (index ws) (ilength ws) (version ws)
              (WriteSetEntry.addr log) h with
  | None => None
  | Some (Hit h') =>
      s ← index ws !! Z.to_nat h';
      e ← list_ ws !! Z.to_nat (index_t.index s);
      Some (true, WriteSetEntry.mk (WriteSetEntry.addr log) (WriteSetEntry.val e))
  | Some (Free _) => Some (false, log)
  end.
Proof.
  revert h. induction fuel as [|fuel IH]; intros h; simpl; [done|].
  destruct (index ws !! Z.to_nat h) as [s|] eqn:Hs; simpl; [|done].
  destruct (live (version ws) s); [|done].
  destruct (negb (index_t.address s =? WriteSetEntry.addr log)); [apply IH|].
  rewrite Hs. done.
Qed.

Lemma insert_loop_probe fuel ws log h :
  insert_loop fuel ws log h =
  match probe fuel (index ws) (ilength ws) (version ws)
              (WriteSetEntry.addr log) h with
  | None => None
  | Some (Hit h') =>
      s ← index ws !! Z.to_nat h';
      e ← list_ ws !! Z.to_nat (index_t.index s);
      Some (set_list ws (<[Z.to_nat (index_t.index s) :=
                             WriteSetEntry.update e log]> (list_ ws)), true)
  | Some (Free h') => insert_new ws log h'
  end.
Proof.
  revert h. induction fuel as [|fuel IH]; intros h; simpl; [done|].
  destruct (index ws !! Z.to_nat h) as [s|] eqn:Hs; simpl; [|done].
  destruct (live (version ws) s); [|done].
  destruct (negb (index_t.address s =? WriteSetEntry.addr log)); [apply IH|].
  rewrite Hs. done.
Qed.

Lemma remove_loop_free fuel ws log h h' :
  probe fuel (index ws) (ilength ws) (version ws) (WriteSetEntry.addr log) h
    = Some (Free h') ->
  remove_loop (S fuel) ws log h = Some ws.
Proof.
  revert h. induction fuel as [|fuel IH]; intros h; [done|].
  intros Hp. simpl in Hp.
  change (remove_loop (S (S fuel)) ws log h) with
    (s ← index ws !! Z.to_nat h;
     if live (version ws) s then
       if negb (index_t.address s =? WriteSetEntry.addr log) then
         remove_loop (S fuel) ws log (next (ilength ws) h)
       else
         remove_loop (S fuel)
           (set_index ws
              (<[Z.to_nat h :=
                   index_t.mk (wrap (index_t.version s - 1))
                              (index_t.address s) (index_t.index s)]>
                 (index ws)))
           log h
     else Some ws).
  destruct (index ws !! Z.to_nat h) as [s|] eqn:Hs; simpl in *; [|done].
  destruct (live (version ws) s); [|done].
  destruct (negb (index_t.address s =? WriteSetEntry.addr log)); [|done].
  by apply IH.
Qed.

Lemma remove_loop_hit fuel ws log h h' :
  probe fuel (index ws) (ilength ws) (version ws) (WriteSetEntry.addr log) h
    = Some (Hit h') ->
  exists s,
    index ws !! Z.to_nat h' = Some s /\
    live (version ws) s = true /\
    index_t.address s = WriteSetEntry.addr log /\
    remove_loop (S fuel) ws log h =
      Some (set_index ws
              (<[Z.to_nat h' :=
                   index_t.mk (wrap (index_t.version s - 1))
                              (index_t.address s) (index_t.index s)]>
                 (index ws))).
Proof.
  revert h. induction fuel as [|fuel IH]; intros h; [done|].
  intros Hp. simpl in Hp.
  change (remove_loop (S (S fuel)) ws log h) with
    (s ← index ws !! Z.to_nat h;
     if live (version ws) s then
       if negb (index_t.address s =? WriteSetEntry.addr log) then
         remove_loop (S fuel) ws log (next (ilength ws) h)
       else
         remove_loop (S fuel)
           (set_index ws
              (<[Z.to_nat h :=
                   index_t.mk (wrap (index_t.version s - 1))
                              (index_t.address s) (index_t.index s)]>
                 (index ws)))
           log h
     else Some ws).
  destruct (index ws !! Z.to_nat h) as [s|] eqn:Hs; simpl in *; [|done].
  destruct (live (version ws) s) eqn:Hl; [|done].
  destruct (index_t.address s =? WriteSetEntry.addr log) eqn:Ha; simpl in *.
  - injection Hp as <-. exists s. split; [done|]. split; [done|].
    split; [by apply Z.eqb_eq|].
    rewrite list_lookup_insert_eq by (by eapply lookup_lt_Some).
    simpl. unfold live in *. simpl.
    apply Z.eqb_eq in Hl.
    destruct (wrap (index_t.version s - 1) =? version ws) eqn:Hw; [|done].
    apply Z.eqb_eq in Hw. rewrite <- Hl in Hw. by apply wrap_pred_neq in Hw.
  - by apply IH.
Qed.

(** * Properties of the probe sequence *)

Section Probe.

Variables (n v : Z).
Hypothesis n_pos : 0 < n.

Lemma probe_hit fuel t key h h' :
  probe fuel t n v key h = Some (Hit h') ->
  exists s, t !! Z.to_nat h' = Some s /\ live v s = true /\
            index_t.address s = key.
Proof.
  revert h. induction fuel as [|fuel IH]; intros h; simpl; [done|].
  destruct (t !! Z.to_nat h) as [s|] eqn:Hs; simpl; [|done].
  destruct (live v s) eqn:Hl; [|done].
  destruct (index_t.address s =? key) eqn:Ha; simpl.
  - intros [= <-]. exists s. by rewrite Z.eqb_eq in Ha.
  - apply IH.
Qed.

Lemma probe_free fuel t key h h' :
  probe fuel t n v key h = Some (Free h') ->
  exists s, t !! Z.to_nat h' = Some s /\ live v s = false.
Proof.
  revert h. induction fuel as [|fuel IH]; intros h; simpl; [done|].
  destruct (t !! Z.to_nat h) as [s|] eqn:Hs; simpl; [|done].
  destruct (live v s) eqn:Hl.
  - destruct (index_t.address s =? key); simpl; [done|apply IH].
  - intros [= <-]. by exists s.
Qed.

Lemma probe_range fuel t key h r :
  0 <= h < n ->
  probe fuel t n v key h = Some r -> 0 <= slot_of r < n.
Proof.
  revert h. induction fuel as [|fuel IH]; intros h Hh; simpl; [done|].
  destruct (t !! Z.to_nat h) as [s|] eqn:Hs; simpl; [|done].
  destruct (live v s).
  - destruct (index_t.address s =? key); simpl.
    + by intros [= <-].
    + apply IH. by apply next_range.
  - by intros [= <-].
Qed.

(** A slot that is not live or holds the key, [d] steps ahead, stops the
    probe. *)
Lemma probe_stops_within (d : nat) : forall fuel t key h s,
  (d < fuel)%nat -> 0 <= h < n -> n < 2 ^ 64 ->
  Z.of_nat (length t) = n ->
  t !! Z.to_nat ((h + Z.of_nat d) mod n) = Some s ->
  live v s = false \/ index_t.address s = key ->
  exists r, probe fuel t n v key h = Some r.
Proof.
  induction d as [|d IH]; intros fuel t key h s Hd Hh Hn Hlen Hs Hl.
  - destruct fuel as [|fuel]; [lia|]. simpl.
    rewrite Z.add_0_r, Z.mod_small in Hs by lia.
    rewrite Hs. simpl. destruct (live v s); [|eauto].
    destruct Hl as [Hl | Hl]; [done|].
    apply Z.eqb_eq in Hl. rewrite Hl. simpl. eauto.
  - destruct fuel as [|fuel]; [lia|]. simpl.
    destruct (lookup_lt_is_Some_2 t (Z.to_nat h)) as [s0 Hs0]; [lia|].
    rewrite Hs0. simpl.
    destruct (live v s0); [|eauto].
    destruct (index_t.address s0 =? key); simpl; [eauto|].
    apply (IH fuel t key (next n h) s); try done; [lia|by apply next_range|].
    replace ((next n h + Z.of_nat d) mod n)
      with ((h + Z.of_nat (S d)) mod n); [done|].
    unfold next. rewrite wrap_small by lia.
    rewrite Zplus_mod_idemp_l. f_equal. lia.
Qed.

Lemma probe_stops t key h (j : nat) s :
  0 <= h < n -> n < 2 ^ 64 -> Z.of_nat (length t) = n ->
  t !! j = Some s -> live v s = false \/ index_t.address s = key ->
  exists r, probe (Z.to_nat n) t n v key h = Some r.
Proof.
  intros Hh Hn Hlen Hs Hl.
  assert (Hj : Z.of_nat j < n) by (apply lookup_lt_Some in Hs; lia).
  pose (d := (Z.of_nat j - h) mod n).
  assert (Hd : 0 <= d < n) by (apply Z.mod_pos_bound; lia).
  apply (probe_stops_within (Z.to_nat d) _ t key h s); try done; [lia|].
  rewrite Z2Nat.id by lia. unfold d.
  rewrite Zplus_mod_idemp_r.
  replace (h + (Z.of_nat j - h)) with (Z.of_nat j) by lia.
  rewrite Z.mod_small by lia. by rewrite Nat2Z.id.
Qed.

Lemma probe_terminates t key h (j : nat) s :
  0 <= h < n -> n < 2 ^ 64 -> Z.of_nat (length t) = n ->
  t !! j = Some s -> live v s = false ->
  exists r, probe (Z.to_nat n) t n v key h = Some r.
Proof. intros. eapply probe_stops; eauto. Qed.

(** The fuel is exact: a probe that runs out of it has only seen live
    slots of other addresses, and these are all the slots, so that the
    loop of the C++ code never exits. *)
Lemma probe_out_of_fuel t key h :
  0 <= h < n -> n < 2 ^ 64 -> Z.of_nat (length t) = n ->
  probe (Z.to_nat n) t n v key h = None ->
  Forall (fun s => live v s = true /\ index_t.address s <> key) t.
Proof.
  intros Hh Hn Hlen Hp. apply Forall_lookup. intros j s Hs.
  destruct (live v s) eqn:Hl.
  - split; [done|]. intros Ha.
    destruct (probe_stops t key h j s) as [r Hr]; auto. congruence.
  - destruct (probe_stops t key h j s) as [r Hr]; auto. congruence.
Qed.

(** Writing a slot that is not live leaves every other result as it is. *)
Lemma probe_frame fuel t key h r hj sj x :
  0 <= h -> 0 <= hj ->
  t !! Z.to_nat hj = Some sj -> live v sj = false ->
  r <> Free hj ->
  probe fuel t n v key h = Some r ->
  probe fuel (<[Z.to_nat hj := x]> t) n v key h = Some r.
Proof.
  intros Hh Hhj Hsj Hlj Hr. revert h Hh.
  induction fuel as [|fuel IH]; intros h Hh; simpl; [done|].
  destruct (t !! Z.to_nat h) as [s|] eqn:Hs; simpl; [|done].
  destruct (decide (h = hj)) as [-> | Hne].
  - rewrite Hsj in Hs. injection Hs as <-. rewrite Hlj.
    intros [= <-]. done.
  - rewrite list_lookup_insert_ne by lia. rewrite Hs. simpl.
    destruct (live v s); [|done].
    destruct (index_t.address s =? key); simpl; [done|].
    apply IH. pose proof (next_range n h n_pos). lia.
Qed.

(** Binding the key in the free slot its probe ended in. *)
Lemma probe_claim fuel t key h h' i :
  0 <= h ->
  probe fuel t n v key h = Some (Free h') ->
  probe fuel (<[Z.to_nat h' := index_t.mk v key i]> t) n v key h
    = Some (Hit h').
Proof.
  intros Hh Hp.
  destruct (probe_free _ _ _ _ _ Hp) as (s' & Hs' & Hl').
  revert h Hh Hp.
  induction fuel as [|fuel IH]; intros h Hh; simpl; [done|].
  destruct (t !! Z.to_nat h) as [s|] eqn:Hs; simpl; [|done].
  destruct (live v s) eqn:Hl.
  - destruct (index_t.address s =? key) eqn:Ha; simpl; [done|].
    intros Hp.
    assert (Z.to_nat h <> Z.to_nat h') by (intros E; congruence).
    rewrite list_lookup_insert_ne by done. rewrite Hs. simpl.
    rewrite Hl, Ha. simpl. apply IH; [|done].
    pose proof (next_range n h n_pos). lia.
  - intros [= <-].
    rewrite list_lookup_insert_eq by (by eapply lookup_lt_Some).
    simpl. unfold live. simpl. by rewrite !Z.eqb_refl.
Qed.

(** Invalidating the slot a probe hit makes the probe end there, free. *)
Lemma probe_invalidate fuel t key h h' x :
  live v x = false ->
  probe fuel t n v key h = Some (Hit h') ->
  probe fuel (<[Z.to_nat h' := x]> t) n v key h = Some (Free h').
Proof.
  intros Hx Hp.
  destruct (probe_hit _ _ _ _ _ Hp) as (s' & Hs' & Hl' & Ha').
  revert h Hp.
  induction fuel as [|fuel IH]; intros h; simpl; [done|].
  destruct (t !! Z.to_nat h) as [s|] eqn:Hs; simpl; [|done].
  destruct (live v s) eqn:Hl; [|done].
  destruct (index_t.address s =? key) eqn:Ha; simpl.
  - intros [= <-].
    rewrite list_lookup_insert_eq by (by eapply lookup_lt_Some).
    simpl. by rewrite Hx.
  - intros Hp.
    assert (Z.to_nat h <> Z.to_nat h').
    { intros E. rewrite E, Hs' in Hs. injection Hs as ->.
      apply Z.eqb_neq in Ha. done. }
    rewrite list_lookup_insert_ne by done. rewrite Hs. simpl.
    rewrite Hl, Ha. simpl. by apply IH.
Qed.

End Probe.

(** * The probe of a rebuild *)

Lemma rebuild_probe_free fuel ws h h2 :
  0 < ilength ws -> 0 <= h < ilength ws ->
  rebuild_probe fuel ws h = Some h2 ->
  0 <= h2 < ilength ws /\
  exists s, index ws !! Z.to_nat h2 = Some s /\ live (version ws) s = false.
Proof.
  intros Hn. revert h. induction fuel as [|fuel IH]; intros h Hh; simpl; [done|].
  destruct (index ws !! Z.to_nat h) as [s|] eqn:Hs; simpl; [|done].
  destruct (live (version ws) s) eqn:Hl.
  - apply IH. by apply next_range.
  - intros [= <-]. eauto.
Qed.

Lemma rebuild_probe_stops_within (d : nat) : forall fuel ws h s,
  (d < fuel)%nat -> 0 <= h < ilength ws -> ilength ws < 2 ^ 64 ->
  Z.of_nat (length (index ws)) = ilength ws ->
  index ws !! Z.to_nat ((h + Z.of_nat d) mod ilength ws) = Some s ->
  live (version ws) s = false ->
  exists h2, rebuild_probe fuel ws h = Some h2.
Proof.
  induction d as [|d IH]; intros fuel ws h s Hd Hh Hn Hlen Hs Hl.
  - destruct fuel as [|fuel]; [lia|]. simpl.
    rewrite Z.add_0_r, Z.mod_small in Hs by lia.
    rewrite Hs. simpl. rewrite Hl. eauto.
  - destruct fuel as [|fuel]; [lia|]. simpl.
    destruct (lookup_lt_is_Some_2 (index ws) (Z.to_nat h)) as [s0 Hs0]; [lia|].
    rewrite Hs0. simpl.
    destruct (live (version ws) s0); [|eauto].
    apply (IH fuel ws (next (ilength ws) h) s); try done;
      [lia|apply next_range; lia|].
    replace ((next (ilength ws) h + Z.of_nat d) mod ilength ws)
      with ((h + Z.of_nat (S d)) mod ilength ws); [done|].
    unfold next. rewrite wrap_small by lia.
    rewrite Zplus_mod_idemp_l. f_equal. lia.
Qed.

Lemma rebuild_probe_terminates ws h (j : nat) s :
  0 <= h < ilength ws -> ilength ws < 2 ^ 64 ->
  Z.of_nat (length (index ws)) = ilength ws ->
  index ws !! j = Some s -> live (version ws) s = false ->
  exists h2, rebuild_probe (Z.to_nat (ilength ws)) ws h = Some h2.
Proof.
  intros Hh Hn Hlen Hs Hl.
  assert (Hj : Z.of_nat j < ilength ws) by (apply lookup_lt_Some in Hs; lia).
  pose (d := (Z.of_nat j - h) mod ilength ws).
  assert (Hd : 0 <= d < ilength ws) by (apply Z.mod_pos_bound; lia).
  apply (rebuild_probe_stops_within (Z.to_nat d) _ ws h s); try done; [lia|].
  rewrite Z2Nat.id by lia. unfold d.
  rewrite Zplus_mod_idemp_r.
  replace (h + (Z.of_nat j - h)) with (Z.of_nat j) by lia.
  rewrite Z.mod_small by lia. by rewrite Nat2Z.id.
Qed.

(** The probe of a key ends at the slot the rebuild probe returns, unless it
    hits the key before. *)
Lemma rebuild_probe_probe fuel ws key h h2 :
  rebuild_probe fuel ws h = Some h2 ->
  probe fuel (index ws) (ilength ws) (version ws) key h = Some (Free h2) \/
  exists h1, probe fuel (index ws) (ilength ws) (version ws) key h
             = Some (Hit h1).
Proof.
  revert h. induction fuel as [|fuel IH]; intros h; simpl; [done|].
  destruct (index ws !! Z.to_nat h) as [s|] eqn:Hs; simpl; [|done].
  destruct (live (version ws) s) eqn:Hl.
  - destruct (index_t.address s =? key); simpl; [eauto|apply IH].
  - intros [= <-]. by left.
Qed.

(** * Counting live slots *)

Lemma live_count_cons v s t :
  live_count v (s :: t) =
  ((if live v s then 1 else 0) + live_count v t)%nat.
Proof.
  unfold live_count. rewrite filter_cons.
  destruct (live v s) eqn:Hl; case_decide; simpl; congruence.
Qed.

Lemma live_count_none v t :
  Forall (fun s => live v s = false) t -> live_count v t = 0%nat.
Proof.
  induction 1 as [|s t Hs _ IH]; [done|].
  by rewrite live_count_cons, Hs, IH.
Qed.

Lemma live_count_insert v t (j : nat) s x :
  t !! j = Some s ->
  (live_count v (<[j := x]> t) + (if live v s then 1 else 0) =
   live_count v t + (if live v x then 1 else 0))%nat.
Proof.
  revert j. induction t as [|s0 t IH]; intros j; [done|].
  destruct j as [|j]; simpl.
  - intros [= ->]. rewrite !live_count_cons. lia.
  - intros Hs. rewrite !live_count_cons. specialize (IH j Hs). lia.
Qed.

Lemma live_count_free v t :
  (live_count v t < length t)%nat ->
  exists (j : nat) s, t !! j = Some s /\ live v s = false.
Proof.
  induction t as [|s t IH]; simpl; [lia|].
  rewrite live_count_cons. destruct (live v s) eqn:Hl.
  - intros H. destruct IH as (j & s' & Hs' & Hl'); [lia|].
    by exists (S j), s'.
  - intros _. by exists 0%nat, s.
Qed.

(** * The hash *)

Lemma hash_low32 sh key :
  0 <= sh ->
  hash sh key = (wrap (key * 2654435769) mod 2 ^ 32) / 2 ^ sh.
Proof.
  intros Hsh. unfold hash.
  change 0xFFFFFFFF with (Z.ones 32).
  rewrite Z.land_ones by lia. by rewrite Z.shiftr_div_pow2.
Qed.

Lemma hash_range sh key :
  0 <= sh <= 32 -> 0 <= hash sh key < 2 ^ (32 - sh).
Proof.
  intros Hsh. rewrite hash_low32 by lia.
  assert (Hm : 0 <= wrap (key * 2654435769) mod 2 ^ 32 < 2 ^ 32)
    by (apply Z.mod_pos_bound; lia).
  assert (Hp : 0 < 2 ^ sh) by (apply Z.pow_pos_nonneg; lia).
  split.
  - apply Z.div_pos; lia.
  - apply Z.div_lt_upper_bound; [done|].
    rewrite <- Z.pow_add_r by lia.
    replace (sh + (32 - sh)) with 32 by lia. lia.
Qed.

(** * Consequences of the invariant *)

Lemma Inv_ilength_bounds ws : Inv ws -> 4 <= ilength ws <= 2 ^ 32.
Proof.
  intros [Hsh Hil _ _ _ _ _ _ _ _]. rewrite Hil. split.
  - change 4 with (2 ^ 2). apply Z.pow_le_mono_r; lia.
  - apply Z.pow_le_mono_r; lia.
Qed.

Lemma Inv_hash_range ws key :
  Inv ws -> 0 <= hash (shift ws) key < ilength ws.
Proof.
  intros HI. rewrite (inv_ilength _ HI). apply hash_range.
  pose proof (inv_shift _ HI). lia.
Qed.

Lemma Inv_lsize_bounds ws : Inv ws -> 0 <= lsize ws /\ 3 * lsize ws < 2 ^ 32.
Proof.
  intros HI. pose proof (Inv_ilength_bounds _ HI).
  pose proof (inv_load _ HI). pose proof (inv_lsize _ HI). lia.
Qed.

Lemma Inv_free_slot ws :
  Inv ws ->
  exists (j : nat) s, index ws !! j = Some s /\ live (version ws) s = false.
Proof.
  intros HI. apply live_count_free.
  pose proof (inv_live _ HI). pose proof (inv_load _ HI).
  pose proof (inv_index _ HI). pose proof (inv_lsize _ HI). lia.
Qed.

Lemma lookup_slot_total ws key :
  Inv ws -> exists r, lookup_slot ws key = Some r.
Proof.
  intros HI. destruct (Inv_free_slot _ HI) as (j & s & Hs & Hl).
  pose proof (Inv_ilength_bounds _ HI).
  unfold lookup_slot.
  eapply probe_terminates; eauto using Inv_hash_range, inv_index; lia.
Qed.

Lemma length_entries ws :
  Inv ws -> length (entries ws) = Z.to_nat (lsize ws).
Proof.
  intros HI. unfold entries. apply length_take_le.
  pose proof (inv_capacity _ HI). pose proof (inv_lsize _ HI). lia.
Qed.

Lemma entries_lookup ws (k : nat) e :
  entries ws !! k = Some e ->
  list_ ws !! k = Some e /\ (k < Z.to_nat (lsize ws))%nat.
Proof. unfold entries. intros H. by apply lookup_take_Some in H. Qed.

(** What a hit of the probe gives under the invariant. *)
Lemma Inv_hit ws key h :
  Inv ws -> lookup_slot ws key = Some (Hit h) ->
  exists s e,
    index ws !! Z.to_nat h = Some s /\
    live (version ws) s = true /\
    index_t.address s = key /\
    0 <= index_t.index s < lsize ws /\
    entries ws !! Z.to_nat (index_t.index s) = Some e /\
    list_ ws !! Z.to_nat (index_t.index s) = Some e /\
    WriteSetEntry.addr e = key.
Proof.
  intros HI Hp. unfold lookup_slot in Hp.
  destruct (probe_hit _ _ _ _ _ _ _ Hp) as (s & Hs & Hl & Ha).
  destruct (inv_sound _ HI _ _ Hs Hl) as (H0 & e & He & Hae).
  destruct (entries_lookup _ _ _ He) as [Hle Hlt].
  exists s, e. repeat split; try done; [lia|congruence].
Qed.

(** * find *)

Lemma find_spec ws log :
  Inv ws ->
  match lookup_slot ws (WriteSetEntry.addr log) with
  | Some (Hit h) =>
      exists s e,
        index ws !! Z.to_nat h = Some s /\
        entries ws !! Z.to_nat (index_t.index s) = Some e /\
        WriteSetEntry.addr e = WriteSetEntry.addr log /\
        find ws log = Some (true, WriteSetEntry.mk (WriteSetEntry.addr log)
                                                   (WriteSetEntry.val e))
  | Some (Free h) => find ws log = Some (false, log)
  | None => False
  end.
Proof.
  intros HI.
  destruct (lookup_slot_total ws (WriteSetEntry.addr log) HI) as [r Hr].
  rewrite Hr. unfold find. rewrite find_loop_probe.
  unfold lookup_slot in Hr. rewrite Hr.
  destruct r as [h|h]; [|done].
  destruct (Inv_hit ws _ h HI Hr) as (s & e & Hs & _ & _ & _ & He & Hle & Ha).
  exists s, e. rewrite Hs. simpl. rewrite Hle. done.
Qed.

(** * remove *)

Lemma remove_spec ws log :
  Inv ws ->
  match lookup_slot ws (WriteSetEntry.addr log) with
  | Some (Hit h) =>
      exists s,
        index ws !! Z.to_nat h = Some s /\
        live (version ws) s = true /\
        index_t.address s = WriteSetEntry.addr log /\
        remove ws log =
          Some (set_index ws
                  (<[Z.to_nat h :=
                       index_t.mk (index_t.version s - 1)
                                  (index_t.address s) (index_t.index s)]>
                     (index ws)))
  | Some (Free h) => remove ws log = Some ws
  | None => False
  end.
Proof.
  intros HI.
  destruct (lookup_slot_total ws (WriteSetEntry.addr log) HI) as [r Hr].
  rewrite Hr. unfold remove, lookup_slot in *.
  destruct r as [h|h].
  - destruct (remove_loop_hit _ _ _ _ _ Hr) as (s & Hs & Hl & Ha & Hrm).
    exists s. repeat split; try done. rewrite Hrm.
    rewrite wrap_small; [done|].
    unfold live in Hl. apply Z.eqb_eq in Hl.
    pose proof (inv_version _ HI). lia.
  - by eapply remove_loop_free.
Qed.

Lemma slots_sound_invalidate v t es (j : nat) x :
  slots_sound v t es -> live v x = false ->
  slots_sound v (<[j := x]> t) es.
Proof.
  intros Hss Hx j' s Hs Hl.
  apply list_lookup_insert_Some in Hs as [(-> & -> & _) | (Hne & Hs)].
  - congruence.
  - by eapply Hss.
Qed.

Lemma Inv_invalidate ws (j : nat) s :
  Inv ws -> index ws !! j = Some s -> live (version ws) s = true ->
  Inv (set_index ws
         (<[j := index_t.mk (index_t.version s - 1) (index_t.address s)
                            (index_t.index s)]> (index ws))).
Proof.
  intros HI Hs Hl.
  assert (Hv : index_t.version s = version ws) by (by apply Z.eqb_eq).
  pose proof (inv_version _ HI) as Hver.
  assert (Hx : live (version ws)
                 (index_t.mk (index_t.version s - 1) (index_t.address s)
                             (index_t.index s)) = false).
  { unfold live. simpl. apply Z.eqb_neq. lia. }
  destruct HI as [H1 H2 H3 H4 H5 H6 H7 H8 H9 H10].
  split; simpl; try done.
  - by rewrite length_insert.
  - apply Forall_insert; [done|]. simpl. lia.
  - pose proof (live_count_insert (version ws) _ _ _
                  (index_t.mk (index_t.version s - 1) (index_t.address s)
                              (index_t.index s)) Hs) as Hc.
    rewrite Hl, Hx in Hc. lia.
  - unfold entries in *. simpl. by apply slots_sound_invalidate.
Qed.

Lemma Inv_remove ws log ws' :
  Inv ws -> remove ws log = Some ws' -> Inv ws'.
Proof.
  intros HI Hr. pose proof (remove_spec ws log HI) as Hsp.
  destruct (lookup_slot ws (WriteSetEntry.addr log)) as [[h|h]|]; [| |done].
  - destruct Hsp as (s & Hs & Hl & _ & Hrm).
    rewrite Hrm in Hr. injection Hr as <-. by apply Inv_invalidate.
  - congruence.
Qed.

(** * reset *)

Lemma Inv_reset_internal ws :
  Inv ws -> Inv (reset_internal (set_version (set_lsize ws 0) 0)).
Proof.
  intros HI. pose proof (Inv_ilength_bounds _ HI) as Hil.
  pose proof (inv_index _ HI) as Hidx.
  destruct HI as [H1 H2 H3 H4 H5 H6 H7 H8 H9 H10].
  assert (Hnone : Forall (fun s => live 1 s = false)
                    (replicate (Z.to_nat (ilength ws)) index_t.init))
    by (by apply Forall_replicate).
  split; simpl; try done.
  - rewrite length_replicate. lia.
  - by apply Forall_replicate.
  - lia.
  - lia.
  - rewrite live_count_none by done. lia.
  - intros j s Hs Hl. apply lookup_replicate in Hs as [-> _]. done.
Qed.

Lemma Inv_reset ws : Inv ws -> Inv (reset ws).
Proof.
  intros HI. unfold reset.
  change (version (set_lsize ws 0)) with (version ws).
  change (version (set_version (set_lsize ws 0) (wrap (version ws + 1))))
    with (wrap (version ws + 1)).
  pose proof (inv_version _ HI) as Hver.
  destruct (Z.eq_dec (version ws) (2 ^ 64 - 1)) as [He | Hne].
  - rewrite He. change (wrap (2 ^ 64 - 1 + 1)) with 0. simpl negb.
    cbv iota. by apply Inv_reset_internal.
  - rewrite wrap_small by lia.
    destruct (version ws + 1 =? 0) eqn:E; [apply Z.eqb_eq in E; lia|].
    simpl negb. cbv iota.
    assert (Hnone : Forall (fun s => live (version ws + 1) s = false) (index ws)).
    { eapply Forall_impl; [apply (inv_slots _ HI)|].
      intros s Hs. unfold live. apply Z.eqb_neq. simpl in Hs. lia. }
    destruct HI as [H1 H2 H3 H4 H5 H6 H7 H8 H9 H10].
    split; simpl; try done.
    + lia.
    + eapply Forall_impl; [apply H5|]. simpl. intros; lia.
    + lia.
    + lia.
    + rewrite live_count_none by done. lia.
    + intros j s Hs Hl. rewrite Forall_lookup in Hnone.
      specialize (Hnone _ _ Hs). simpl in Hnone. congruence.
Qed.

(** * rebuild *)

Lemma rebuilding_ilength ws bound :
  rebuilding ws bound -> 4 <= ilength ws <= 2 ^ 32.
Proof.
  intros HR. rewrite (rb_ilength _ _ HR). pose proof (rb_shift _ _ HR). split.
  - change 4 with (2 ^ 2). apply Z.pow_le_mono_r; lia.
  - apply Z.pow_le_mono_r; lia.
Qed.

Lemma rebuilding_hash ws bound key :
  rebuilding ws bound -> 0 <= hash (shift ws) key < ilength ws.
Proof.
  intros HR. rewrite (rb_ilength _ _ HR). apply hash_range.
  pose proof (rb_shift _ _ HR). lia.
Qed.

Lemma rebuilding_step ws bound l h2 :
  rebuilding ws bound ->
  rebuild_probe (Z.to_nat (ilength ws)) ws
                (hash (shift ws) (WriteSetEntry.addr l)) = Some h2 ->
  rebuilding
    (set_index ws
       (<[Z.to_nat h2 := index_t.mk (version ws) (WriteSetEntry.addr l)
                                    (Z.of_nat (length bound))]> (index ws)))
    (bound ++ [l]).
Proof.
  intros HR Hp.
  pose proof (rebuilding_ilength _ _ HR) as Hil.
  pose proof (rebuilding_hash _ _ (WriteSetEntry.addr l) HR) as Hh.
  assert (Hpos : 0 < ilength ws) by lia.
  destruct (rebuild_probe_free _ _ _ _ Hpos Hh Hp)
    as (Hh2 & s2 & Hs2 & Hl2).
  set (x := index_t.mk (version ws) (WriteSetEntry.addr l)
                       (Z.of_nat (length bound))).
  assert (Hx : live (version ws) x = true)
    by (unfold live; simpl; apply Z.eqb_refl).
  pose proof (rb_version _ _ HR) as Hver.
  split; simpl.
  - apply (rb_shift _ _ HR).
  - apply (rb_ilength _ _ HR).
  - rewrite length_insert. apply (rb_index _ _ HR).
  - done.
  - apply Forall_insert; [apply (rb_slots _ _ HR)|]. simpl. lia.
  - pose proof (live_count_insert (version ws) _ _ _ x Hs2) as Hc.
    rewrite Hl2, Hx in Hc. rewrite length_app. simpl.
    rewrite <- (rb_live _ _ HR). lia.
  - intros j s Hs Hl.
    apply list_lookup_insert_Some in Hs as [(_ & Hxs & _) | (Hne & Hs)].
    + subst s. simpl. split; [lia|]. exists l. split; [|done].
      rewrite Nat2Z.id. apply list_lookup_middle. done.
    + destruct (rb_sound _ _ HR _ _ Hs Hl) as (H0 & e & He & Ha).
      split; [done|]. exists e. split; [|done]. by apply lookup_app_l_Some.
  - (* every entry bound so far is still found first *)
    assert (Hold : forall (k : nat) e, bound !! k = Some e ->
      exists h s (k0 : nat) e0,
        lookup_slot (set_index ws (<[Z.to_nat h2 := x]> (index ws)))
                    (WriteSetEntry.addr e) = Some (Hit h) /\
        <[Z.to_nat h2 := x]> (index ws) !! Z.to_nat h = Some s /\
        index_t.index s = Z.of_nat k0 /\
        (bound ++ [l]) !! k0 = Some e0 /\
        WriteSetEntry.addr e0 = WriteSetEntry.addr e /\
        forall (j : nat) e', (j < k0)%nat -> (bound ++ [l]) !! j = Some e' ->
                             WriteSetEntry.addr e' <> WriteSetEntry.addr e).
    { intros k e He.
      destruct (rb_first _ _ HR k e He)
        as (h & s & k0 & e0 & Hlk & Hs & Hi & He0 & Ha0 & Hfirst).
      exists h, s, k0, e0.
      unfold lookup_slot in Hlk.
      destruct (probe_hit _ _ _ _ _ _ _ Hlk) as (s' & Hs' & Hl' & _).
      assert (Hne : Z.to_nat h2 <> Z.to_nat h) by (intros E; congruence).
      repeat split; try done.
      - unfold lookup_slot. simpl.
        eapply probe_frame; eauto; try lia.
        pose proof (rebuilding_hash _ _ (WriteSetEntry.addr e) HR). lia.
      - by rewrite list_lookup_insert_ne.
      - by apply lookup_app_l_Some.
      - intros j e' Hj He'. apply (Hfirst j e' Hj).
        apply lookup_lt_Some in He0.
        rewrite lookup_app_l in He' by lia. done. }
    intros k e He.
    apply lookup_app_Some in He as [He | (Hk & He)]; [by eapply Hold|].
    apply list_lookup_singleton_Some in He as [_ <-].
    destruct (decide (Exists (fun e' => WriteSetEntry.addr e' =
                                        WriteSetEntry.addr l) bound))
      as [Hex | Hnex].
    + apply Exists_exists in Hex as (e' & Hin & Ha').
      apply list_elem_of_lookup in Hin as [k' Hk'].
      rewrite <- Ha'. apply (Hold k' e' Hk').
    + assert (Hfresh : forall (j : nat) e', bound !! j = Some e' ->
                WriteSetEntry.addr e' <> WriteSetEntry.addr l).
      { intros j e' He' Ha'. apply Hnex. apply Exists_exists.
        exists e'. split; [|done]. by eapply list_elem_of_lookup_2. }
      destruct (rebuild_probe_probe _ _ (WriteSetEntry.addr l) _ _ Hp)
        as [Hfree | [h1 Hhit]].
      * exists h2, x, (length bound), l.
        repeat split.
        -- unfold lookup_slot. simpl. apply probe_claim; [lia|lia|]. exact Hfree.
        -- apply list_lookup_insert_eq. by eapply lookup_lt_Some.
        -- apply list_lookup_middle. done.
        -- intros j e' Hj He'. rewrite lookup_app_l in He' by lia.
           by eapply Hfresh.
      * exfalso.
        destruct (probe_hit _ _ _ _ _ _ _ Hhit) as (s1 & Hs1 & Hl1 & Ha1).
        destruct (rb_sound _ _ HR _ _ Hs1 Hl1) as (_ & e' & He' & Hae').
        eapply Hfresh; [apply He'|]. congruence.
Qed.

Lemma rebuild_loop_spec todo : forall bound ws,
  rebuilding ws bound ->
  Z.of_nat (length bound + length todo) < ilength ws ->
  exists ws',
    rebuild_loop todo (Z.of_nat (length bound)) ws = Some ws' /\
    rebuilding ws' (bound ++ todo) /\
    shift ws' = shift ws /\ ilength ws' = ilength ws /\
    version ws' = version ws /\ list_ ws' = list_ ws /\
    capacity ws' = capacity ws /\ lsize ws' = lsize ws.
Proof.
  induction todo as [|l todo IH]; intros bound ws HR Hlen; simpl.
  - exists ws. rewrite app_nil_r. split; [done|]. split; [exact HR|]. by repeat split.
  - pose proof (rebuilding_ilength _ _ HR) as Hil.
    pose proof (rebuilding_hash _ _ (WriteSetEntry.addr l) HR) as Hh.
    destruct (live_count_free (version ws) (index ws)) as (j & s & Hs & Hl).
    { rewrite (rb_live _ _ HR). pose proof (rb_index _ _ HR).
      simpl in Hlen. lia. }
    assert (Hlt : ilength ws < 2 ^ 64) by lia.
    destruct (rebuild_probe_terminates ws _ j s Hh Hlt
                (rb_index _ _ HR) Hs Hl) as [h2 Hp].
    rewrite Hp. simpl.
    pose proof (rebuilding_step _ _ l _ HR Hp) as HR'.
    destruct (IH (bound ++ [l]) _ HR') as (ws' & Hrun & HR'' & Hfr).
    { rewrite length_app. simpl in *. lia. }
    exists ws'. split.
    + rewrite <- Hrun. f_equal.
      rewrite length_app. simpl. rewrite wrap_small; [f_equal; lia|].
      simpl in Hlen. lia.
    + split; [by rewrite <- app_assoc in HR''|]. exact Hfr.
Qed.

(** The state a rebuild starts from and what it establishes. *)
Lemma rebuild_spec ws :
  1 <= shift ws <= 30 ->
  ilength ws = 2 ^ (32 - shift ws) ->
  Z.of_nat (length (list_ ws)) = capacity ws ->
  0 <= lsize ws < capacity ws ->
  lsize ws * 3 < 2 * ilength ws ->
  exists ws',
    rebuild ws = Some ws' /\ Inv ws' /\ first_reach ws' (entries ws') /\
    shift ws' = shift ws - 1 /\ ilength ws' = 2 * ilength ws /\
    version ws' = 1 /\ list_ ws' = list_ ws /\
    capacity ws' = capacity ws /\ lsize ws' = lsize ws.
Proof.
  intros Hsh Hil Hcap Hls Hload.
  assert (Hil' : 4 <= ilength ws <= 2 ^ 31).
  { rewrite Hil. split.
    - change 4 with (2 ^ 2). apply Z.pow_le_mono_r; lia.
    - apply Z.pow_le_mono_r; lia. }
  unfold rebuild.
  set (ws0 := set_version
                (set_index (doubleIndexLength ws)
                   (replicate (Z.to_nat (ilength (doubleIndexLength ws)))
                              index_t.init)) 1).
  assert (Hsh0 : shift ws0 = shift ws - 1)
    by (simpl; apply wrap_small; lia).
  assert (Hil0 : ilength ws0 = 2 * ilength ws)
    by (simpl; apply wrap_small; lia).
  assert (Hes : entries ws0 = entries ws) by done.
  assert (Hlen : length (entries ws) = Z.to_nat (lsize ws))
    by (unfold entries; apply length_take_le; lia).
  assert (HR : rebuilding ws0 []).
  { split.
    - lia.
    - rewrite Hil0, Hsh0, Hil.
      replace (32 - (shift ws - 1)) with (1 + (32 - shift ws)) by lia.
      rewrite Z.pow_add_r by lia. done.
    - simpl. rewrite length_replicate. rewrite Z2Nat.id; [done|].
      apply wrap_range.
    - simpl. lia.
    - simpl. by apply Forall_replicate.
    - simpl. apply live_count_none. by apply Forall_replicate.
    - intros j s Hs Hl. simpl in Hs.
      apply lookup_replicate in Hs as [-> _]. done.
    - intros k e He. done. }
  destruct (rebuild_loop_spec (entries ws0) [] ws0 HR)
    as (ws' & Hrun & HR' & Hf1 & Hf2 & Hf3 & Hf4 & Hf5 & Hf6).
  { rewrite Hes, Hlen, Hil0. simpl length. lia. }
  simpl app in HR'.
  assert (Hes' : entries ws' = entries ws)
    by (unfold entries; rewrite Hf4, Hf6; done).
  exists ws'. split; [exact Hrun|].
  split; [|split].
  - split.
    + rewrite Hf1. lia.
    + apply (rb_ilength _ _ HR').
    + apply (rb_index _ _ HR').
    + apply (rb_version _ _ HR').
    + apply (rb_slots _ _ HR').
    + rewrite Hf4, Hf5. done.
    + rewrite Hf5, Hf6. done.
    + rewrite Hf2, Hf6, Hil0. simpl. lia.
    + rewrite (rb_live _ _ HR'), Hes, Hlen, Hf6. simpl. lia.
    + rewrite Hes', <- Hes. apply (rb_sound _ _ HR').
  - rewrite Hes', <- Hes. apply (rb_first _ _ HR').
  - rewrite Hf1, Hf2, Hf3, Hf4, Hf5, Hf6. by repeat split.
Qed.

(** * insert: the address is already bound *)

Lemma insert_hit ws log h :
  Inv ws -> lookup_slot ws (WriteSetEntry.addr log) = Some (Hit h) ->
  exists s e,
    index ws !! Z.to_nat h = Some s /\
    0 <= index_t.index s < lsize ws /\
    entries ws !! Z.to_nat (index_t.index s) = Some e /\
    WriteSetEntry.addr e = WriteSetEntry.addr log /\
    insert ws log =
      Some (set_list ws (<[Z.to_nat (index_t.index s) :=
                             WriteSetEntry.update e log]> (list_ ws)), true).
Proof.
  intros HI Hr.
  destruct (Inv_hit ws _ h HI Hr) as (s & e & Hs & _ & _ & Hi & He & Hle & Ha).
  exists s, e. repeat split; try done; try lia.
  unfold insert. rewrite insert_loop_probe.
  unfold lookup_slot in Hr. rewrite Hr. simpl. rewrite Hs. simpl.
  by rewrite Hle.
Qed.

Lemma entries_update ws (k : nat) x :
  (k < Z.to_nat (lsize ws))%nat ->
  entries (set_list ws (<[k := x]> (list_ ws))) = <[k := x]> (entries ws).
Proof. intros Hk. unfold entries. simpl. by apply take_insert_lt. Qed.

Lemma Inv_update ws (k : nat) e log :
  Inv ws -> entries ws !! k = Some e ->
  Inv (set_list ws (<[k := WriteSetEntry.update e log]> (list_ ws))).
Proof.
  intros HI He. destruct (entries_lookup _ _ _ He) as [Hle Hk].
  pose proof (entries_update ws k (WriteSetEntry.update e log) Hk) as Hes.
  destruct HI as [H1 H2 H3 H4 H5 H6 H7 H8 H9 H10].
  split; simpl; try done.
  - by rewrite length_insert.
  - rewrite Hes. intros j s Hs Hl.
    destruct (H10 j s Hs Hl) as (H0 & e' & He' & Ha'). split; [done|].
    destruct (decide (k = Z.to_nat (index_t.index s))) as [-> | Hne].
    + exists (WriteSetEntry.update e log). split.
      * apply list_lookup_insert_eq. by eapply lookup_lt_Some.
      * simpl. congruence.
    + exists e'. split; [|done]. by rewrite list_lookup_insert_ne.
Qed.

(** * insert: a new binding *)

Lemma entries_append ws log :
  0 <= lsize ws -> (Z.to_nat (lsize ws) < length (list_ ws))%nat ->
  take (Z.to_nat (lsize ws + 1)) (<[Z.to_nat (lsize ws) := log]> (list_ ws))
  = entries ws ++ [log].
Proof.
  intros H0 Hlt. unfold entries.
  replace (Z.to_nat (lsize ws + 1)) with (S (Z.to_nat (lsize ws))) by lia.
  rewrite (take_S_r _ _ log) by (by apply list_lookup_insert_eq).
  by rewrite take_insert_ge.
Qed.

Lemma insert_new_unfold ws log h :
  lsize ws < Z.of_nat (length (list_ ws)) ->
  insert_new ws log h =
  (let ws1 :=
     mkWriteSet
       (<[Z.to_nat h := index_t.mk (version ws) (WriteSetEntry.addr log)
                                   (lsize ws)]> (index ws))
       (shift ws) (ilength ws) (version ws)
       (<[Z.to_nat (lsize ws) := log]> (list_ ws))
       (capacity ws) (wrap (lsize ws + 1)) in
   let ws2 := if lsize ws1 =? capacity ws1 then resize ws1 else ws1 in
   ws3 ← (if wrap (lsize ws2 * 3) >=? ilength ws2
          then rebuild ws2 else Some ws2);
   Some (ws3, false)).
Proof.
  intros Hlt. unfold insert_new.
  destruct (lsize ws <? Z.of_nat (length (list_ ws))) eqn:E;
    [|apply Z.ltb_ge in E; lia].
  reflexivity.
Qed.

Lemma insert_new_spec ws log h :
  Inv ws -> can_grow ws ->
  lookup_slot ws (WriteSetEntry.addr log) = Some (Free h) ->
  exists ws',
    insert ws log = Some (ws', false) /\
    Inv ws' /\
    entries ws' = entries ws ++ [log] /\
    lsize ws' = lsize ws + 1 /\
    (exists h', lookup_slot ws' (WriteSetEntry.addr log) = Some (Hit h')) /\
    if (lsize ws + 1) * 3 >=? ilength ws
    then first_reach ws' (entries ws') /\ ilength ws' = 2 * ilength ws
    else index ws' =
           <[Z.to_nat h := index_t.mk (version ws) (WriteSetEntry.addr log)
                                      (lsize ws)]> (index ws) /\
         shift ws' = shift ws /\ ilength ws' = ilength ws /\
         version ws' = version ws.
Proof.
  intros HI Hgrow Hr.
  pose proof (Inv_ilength_bounds _ HI) as Hil.
  pose proof (Inv_lsize_bounds _ HI) as [Hls0 Hls3].
  pose proof (Inv_hash_range ws (WriteSetEntry.addr log) HI) as Hh0.
  pose proof (inv_capacity _ HI) as Hcap.
  pose proof (inv_lsize _ HI) as Hls.
  pose proof (inv_load _ HI) as Hload.
  pose proof (inv_version _ HI) as Hver.
  pose proof (inv_shift _ HI) as Hsh.
  unfold lookup_slot in Hr.
  assert (Hpos : 0 < ilength ws) by lia.
  pose proof (probe_range _ _ Hpos _ _ _ _ _ Hh0 Hr) as Hh. simpl in Hh.
  destruct (probe_free _ _ _ _ _ _ _ Hr) as (s0 & Hs0 & Hl0).
  set (x := index_t.mk (version ws) (WriteSetEntry.addr log) (lsize ws)).
  set (t1 := <[Z.to_nat h := x]> (index ws)).
  set (l1 := <[Z.to_nat (lsize ws) := log]> (list_ ws)).
  assert (Hx : live (version ws) x = true)
    by (unfold live; simpl; apply Z.eqb_refl).
  (* the state before the resize and the rebuild *)
  set (ws1 := mkWriteSet t1 (shift ws) (ilength ws) (version ws) l1
                         (capacity ws) (lsize ws + 1)).
  assert (Hes1 : entries ws1 = entries ws ++ [log]).
  { unfold entries at 1. simpl. apply entries_append; lia. }
  assert (Hlen : length (entries ws) = Z.to_nat (lsize ws))
    by (by apply length_entries).
  assert (Hsound1 : slots_sound (version ws) t1 (entries ws ++ [log])).
  { intros j s Hs Hl. unfold t1 in Hs.
    apply list_lookup_insert_Some in Hs as [(_ & Hxs & _) | (Hne & Hs)].
    - subst s. simpl. split; [lia|]. exists log. split; [|done].
      rewrite <- Hlen. by apply list_lookup_middle.
    - destruct (inv_sound _ HI _ _ Hs Hl) as (H0 & e & He & Ha).
      split; [done|]. exists e. split; [|done]. by apply lookup_app_l_Some. }
  assert (Hlive1 : Z.of_nat (live_count (version ws) t1) <= lsize ws + 1).
  { pose proof (live_count_insert (version ws) _ _ _ x Hs0) as Hc.
    rewrite Hl0, Hx in Hc. pose proof (inv_live _ HI). unfold t1. lia. }
  assert (Hslots1 : Forall (fun s => 0 <= index_t.version s <= version ws) t1).
  { apply Forall_insert; [apply (inv_slots _ HI)|]. simpl. lia. }
  assert (Hlen1 : Z.of_nat (length t1) = ilength ws).
  { unfold t1. rewrite length_insert. apply (inv_index _ HI). }
  (* after the resize *)
  set (ws2 := if lsize ws1 =? capacity ws1 then resize ws1 else ws1).
  assert (H2 : index ws2 = t1 /\ shift ws2 = shift ws /\
               ilength ws2 = ilength ws /\ version ws2 = version ws /\
               lsize ws2 = lsize ws + 1 /\ entries ws2 = entries ws ++ [log] /\
               Z.of_nat (length (list_ ws2)) = capacity ws2 /\
               lsize ws2 < capacity ws2).
  { unfold ws2. destruct (lsize ws1 =? capacity ws1) eqn:E.
    - apply Z.eqb_eq in E. simpl in E.
      repeat split; try done.
      + rewrite <- Hes1. unfold entries. simpl.
        apply take_app_le. unfold l1. rewrite length_insert. lia.
      + simpl. rewrite length_app, length_replicate.
        unfold l1. rewrite length_insert. rewrite wrap_small by lia. lia.
      + simpl. rewrite wrap_small by lia. lia.
    - apply Z.eqb_neq in E. simpl in E.
      repeat split; try done; simpl.
      + unfold l1. by rewrite length_insert.
      + lia. }
  destruct H2 as (Hi2 & Hsh2 & Hil2 & Hv2 & Hls2 & Hes2 & Hcap2 & Hlt2).
  (* the insert itself *)
  assert (Hins : insert ws log =
                 ws3 ← (if wrap (lsize ws2 * 3) >=? ilength ws2
                        then rebuild ws2 else Some ws2);
                 Some (ws3, false)).
  { unfold insert. rewrite insert_loop_probe, Hr.
    rewrite insert_new_unfold by lia.
    rewrite (wrap_small (lsize ws + 1)) by lia. reflexivity. }
  rewrite Hins, Hls2, Hil2. rewrite (wrap_small ((lsize ws + 1) * 3)) by lia.
  destruct ((lsize ws + 1) * 3 >=? ilength ws) eqn:Eload.
  - (* the load factor is reached: rebuild *)
    apply Z.geb_le in Eload.
    assert (Hsh1 : 1 <= shift ws).
    { destruct (Z.eq_dec (shift ws) 0) as [E0|]; [|lia].
      rewrite (inv_ilength _ HI), E0 in Eload. unfold can_grow in Hgrow.
      simpl in Eload. lia. }
    destruct (rebuild_spec ws2) as (ws3 & Hrb & HI3 & Hfr & _ & Hil3 & _
                                        & Hl3 & Hc3 & Hs3); try lia.
    { rewrite Hil2, Hsh2. apply (inv_ilength _ HI). }
    assert (Hes3 : entries ws3 = entries ws ++ [log]).
    { rewrite <- Hes2. unfold entries. by rewrite Hl3, Hs3. }
    exists ws3. rewrite Hrb. simpl.
    split; [done|]. split; [exact HI3|]. split; [exact Hes3|].
    split; [lia|]. split.
    + destruct (Hfr (Z.to_nat (lsize ws)) log)
        as (h' & _ & _ & _ & Hlk & _).
      { rewrite Hes3, <- Hlen. by apply list_lookup_middle. }
      by exists h'.
    + split; [exact Hfr|lia].
  - (* no rebuild *)
    rewrite Z.geb_leb in Eload. apply Z.leb_gt in Eload.
    exists ws2. simpl.
    assert (Hlk : lookup_slot ws2 (WriteSetEntry.addr log) = Some (Hit h)).
    { unfold lookup_slot. rewrite Hi2, Hsh2, Hil2, Hv2.
      apply probe_claim; [lia|lia|exact Hr]. }
    assert (HI2 : Inv ws2).
    { split.
      - by rewrite Hsh2.
      - by rewrite Hil2, Hsh2, (inv_ilength _ HI).
      - by rewrite Hi2, Hil2.
      - by rewrite Hv2.
      - by rewrite Hi2, Hv2.
      - done.
      - lia.
      - lia.
      - rewrite Hi2, Hv2, Hls2. done.
      - rewrite Hi2, Hv2, Hes2. done. }
    split; [done|]. split; [exact HI2|]. split; [exact Hes2|].
    split; [exact Hls2|]. split; [by exists h|].
    by rewrite Hi2, Hsh2, Hil2, Hv2.
Qed.

(** * The constructor *)

Lemma grow_index_spec fuel : forall ws n,
  0 <= shift ws <= 32 -> ilength ws = 2 ^ (32 - shift ws) ->
  (Z.to_nat (shift ws) <= fuel)%nat -> 0 <= 3 * n <= 2 ^ 32 ->
  0 <= shift (grow_index fuel ws n) <= 32 /\
  ilength (grow_index fuel ws n) = 2 ^ (32 - shift (grow_index fuel ws n)) /\
  3 * n <= ilength (grow_index fuel ws n) /\
  version (grow_index fuel ws n) = version ws /\
  capacity (grow_index fuel ws n) = capacity ws /\
  lsize (grow_index fuel ws n) = lsize ws.
Proof.
  induction fuel as [|fuel IH]; intros ws n Hsh Hil Hfuel Hn; simpl.
  - assert (shift ws = 0) as E by lia.
    rewrite Hil, E. simpl. repeat split; try done; lia.
  - rewrite (wrap_small (3 * n)) by lia.
    destruct (ilength ws <? 3 * n) eqn:Hlt.
    + apply Z.ltb_lt in Hlt.
      assert (Hs1 : 1 <= shift ws).
      { destruct (Z.eq_dec (shift ws) 0) as [E0|]; [|lia].
        rewrite Hil, E0 in Hlt. simpl in Hlt. lia. }
      assert (Hp : 2 ^ (32 - shift ws) <= 2 ^ 31)
        by (apply Z.pow_le_mono_r; lia).
      assert (Hd1 : shift (doubleIndexLength ws) = shift ws - 1)
        by (simpl; apply wrap_small; lia).
      assert (Hd2 : ilength (doubleIndexLength ws) = 2 * ilength ws)
        by (simpl; apply wrap_small; lia).
      assert (Hd3 : ilength (doubleIndexLength ws)
                    = 2 ^ (32 - shift (doubleIndexLength ws))).
      { rewrite Hd1, Hd2, Hil.
        replace (32 - (shift ws - 1)) with (1 + (32 - shift ws)) by lia.
        by rewrite Z.pow_add_r by lia. }
      assert (Hd4 : 0 <= shift (doubleIndexLength ws) <= 32) by lia.
      assert (Hd5 : (Z.to_nat (shift (doubleIndexLength ws)) <= fuel)%nat)
        by lia.
      destruct (IH (doubleIndexLength ws) n Hd4 Hd3 Hd5 Hn)
        as (H1 & H2 & H3 & H4 & H5 & H6).
      split; [lia|]. split; [done|]. split; [done|].
      split; [done|]. split; done.
    + apply Z.ltb_ge in Hlt. repeat split; try done; lia.
Qed.

Lemma Inv_new n : 1 <= n -> 3 * n <= 2 ^ 32 -> Inv (new_WriteSet n).
Proof.
  intros H1 H2. unfold new_WriteSet.
  set (ws0 := mkWriteSet [] 32 1 1 [] n 0).
  assert (Ha : 0 <= shift ws0 <= 32) by (simpl; lia).
  assert (Hb : ilength ws0 = 2 ^ (32 - shift ws0)) by done.
  assert (Hc0 : (Z.to_nat (shift ws0) <= 32)%nat) by (simpl; lia).
  assert (Hn : 0 <= 3 * n <= 2 ^ 32) by lia.
  destruct (grow_index_spec 32 ws0 n Ha Hb Hc0 Hn)
    as (Hsh & Hil & Hge & Hv & Hc & Hl).
  remember (grow_index 32 ws0 n) as ws eqn:Hws. clear Hws.
  simpl in Hv, Hc, Hl.
  assert (Hs30 : shift ws <= 30).
  { destruct (Z_le_gt_dec (shift ws) 30) as [|Hgt]; [done|].
    assert (2 ^ (32 - shift ws) <= 2 ^ 1) by (apply Z.pow_le_mono_r; lia).
    simpl in *. lia. }
  assert (Hpos : 0 < ilength ws) by lia.
  split; simpl.
  - lia.
  - done.
  - rewrite length_replicate. lia.
  - rewrite Hv. lia.
  - apply Forall_replicate. simpl. rewrite Hv. lia.
  - rewrite length_replicate, Hc. lia.
  - rewrite Hl, Hc. lia.
  - rewrite Hl. lia.
  - rewrite Hl, Hv. rewrite live_count_none; [done|].
    by apply Forall_replicate.
  - intros j s Hs Hlv. apply lookup_replicate in Hs as [-> _].
    rewrite Hv in Hlv. done.
Qed.

Lemma grow_index_lsize fuel : forall ws n,
  lsize (grow_index fuel ws n) = lsize ws.
Proof.
  induction fuel as [|fuel IH]; intros ws n; simpl; [done|].
  destruct (ilength ws <? wrap (3 * n)); [|done]. by rewrite IH.
Qed.

Lemma new_WriteSet_empty n : lsize (new_WriteSet n) = 0.
Proof. exact (grow_index_lsize 32 (mkWriteSet [] 32 1 1 [] n 0) n). Qed.

(** * insert keeps the invariant *)

Lemma Inv_insert ws log :
  Inv ws -> can_grow ws ->
  exists ws' b, insert ws log = Some (ws', b) /\ Inv ws'.
Proof.
  intros HI Hg.
  destruct (lookup_slot_total ws (WriteSetEntry.addr log) HI) as [[h|h] Hr].
  - destruct (insert_hit ws log h HI Hr) as (s & e & _ & _ & He & _ & Hins).
    eexists _, true. split; [exact Hins|]. by eapply Inv_update.
  - destruct (insert_new_spec ws log h HI Hg Hr) as (ws' & Hins & HI' & _).
    by exists ws', false.
Qed.

(** * Sets without a removal: every entry is reached *)

Lemma reach_empty ws : lsize ws = 0 -> reach ws.
Proof. intros H k e. unfold entries. rewrite H. simpl. done. Qed.

Lemma reach_inj ws (k1 k2 : nat) e1 e2 :
  reach ws -> entries ws !! k1 = Some e1 -> entries ws !! k2 = Some e2 ->
  WriteSetEntry.addr e1 = WriteSetEntry.addr e2 -> k1 = k2.
Proof.
  intros HR H1 H2 Ha.
  destruct (HR _ _ H1) as (h1 & s1 & Hl1 & Hs1 & Hi1).
  destruct (HR _ _ H2) as (h2 & s2 & Hl2 & Hs2 & Hi2).
  rewrite Ha, Hl2 in Hl1. injection Hl1 as <-.
  rewrite Hs2 in Hs1. injection Hs1 as <-. lia.
Qed.

Lemma reach_NoDup ws : reach ws -> NoDup (WriteSetEntry.addr <$> entries ws).
Proof.
  intros HR. apply NoDup_alt. intros i j a Hi Hj.
  rewrite list_lookup_fmap in Hi, Hj.
  destruct (entries ws !! i) as [e1|] eqn:H1; [|done].
  destruct (entries ws !! j) as [e2|] eqn:H2; [|done].
  simpl in *. eapply reach_inj; eauto. congruence.
Qed.

Lemma reach_found ws a :
  Inv ws -> reach ws ->
  (exists h, lookup_slot ws a = Some (Hit h)) <->
  a ∈ WriteSetEntry.addr <$> entries ws.
Proof.
  intros HI HR. split.
  - intros [h Hh].
    destruct (Inv_hit ws a h HI Hh) as (s & e & _ & _ & _ & _ & He & _ & Ha).
    apply list_elem_of_fmap. exists e. split; [done|].
    by eapply list_elem_of_lookup_2.
  - intros Hin. apply list_elem_of_fmap in Hin as (e & -> & Hin).
    apply list_elem_of_lookup in Hin as [k Hk].
    destruct (HR _ _ Hk) as (h & _ & Hl & _). by exists h.
Qed.

Lemma reach_insert ws log ws' b :
  Inv ws -> reach ws -> can_grow ws ->
  insert ws log = Some (ws', b) -> reach ws'.
Proof.
  intros HI HR Hg Hins.
  destruct (lookup_slot_total ws (WriteSetEntry.addr log) HI) as [[h|h] Hr].
  - (* the value of an entry is replaced *)
    destruct (insert_hit ws log h HI Hr)
      as (s & e & _ & Hi & He & _ & Hins').
    rewrite Hins' in Hins. injection Hins as <- <-.
    intros k e' He'.
    rewrite entries_update in He' by lia.
    assert (exists e0, entries ws !! k = Some e0 /\
                       WriteSetEntry.addr e0 = WriteSetEntry.addr e')
      as (e0 & He0 & Ha0).
    { apply list_lookup_insert_Some in He' as [(<- & <- & _) | (_ & He')].
      - by exists e.
      - by exists e'. }
    destruct (HR _ _ He0) as (h0 & s0 & Hl0 & Hs0 & Hi0).
    exists h0, s0. rewrite <- Ha0. done.
  - destruct (insert_new_spec ws log h HI Hg Hr)
      as (ws1 & Hins' & HI1 & Hes1 & Hls1 & _ & Hcase).
    rewrite Hins' in Hins. injection Hins as <- <-.
    pose proof (length_entries _ HI) as Hlen.
    pose proof (Inv_lsize_bounds _ HI) as [Hls0 _].
    assert (Hfresh : forall (j : nat) e', entries ws !! j = Some e' ->
              WriteSetEntry.addr e' <> WriteSetEntry.addr log).
    { intros j e' He' Ha.
      destruct (HR _ _ He') as (h0 & _ & Hl0 & _). congruence. }
    destruct ((lsize ws + 1) * 3 >=? ilength ws).
    + (* rebuilt: the first entry of an address is the only one *)
      destruct Hcase as [Hfr _].
      intros k e He.
      destruct (Hfr k e He) as (h0 & s0 & k0 & e0 & Hl0 & Hs0 & Hi0 & He0
                                   & Ha0 & _).
      exists h0, s0. repeat split; try done.
      rewrite Hi0. f_equal.
      rewrite Hes1 in He, He0.
      apply lookup_app_Some in He as [He | (Hk & He)];
        apply lookup_app_Some in He0 as [He0 | (Hk0 & He0)].
      * eapply reach_inj; eauto.
      * apply list_lookup_singleton_Some in He0 as [_ <-].
        exfalso. by eapply Hfresh.
      * apply list_lookup_singleton_Some in He as [_ <-].
        exfalso. by eapply Hfresh.
      * apply list_lookup_singleton_Some in He as [? _].
        apply list_lookup_singleton_Some in He0 as [? _]. lia.
    + destruct Hcase as (Hi1 & Hsh1 & Hil1 & Hv1).
      pose proof (Inv_ilength_bounds _ HI) as Hil.
      assert (Hpos : 0 < ilength ws) by lia.
      pose proof (Inv_hash_range ws (WriteSetEntry.addr log) HI) as Hh0.
      unfold lookup_slot in Hr.
      pose proof (probe_range _ _ Hpos _ _ _ _ _ Hh0 Hr) as Hh. simpl in Hh.
      destruct (probe_free _ _ _ _ _ _ _ Hr) as (sf & Hsf & Hlf).
      intros k e He. rewrite Hes1 in He.
      apply lookup_app_Some in He as [He | (Hk & He)].
      * destruct (HR _ _ He) as (h0 & s0 & Hl0 & Hs0 & Hi0).
        unfold lookup_slot in Hl0.
        destruct (probe_hit _ _ _ _ _ _ _ Hl0) as (s' & Hs' & Hl' & _).
        assert (Hne : Z.to_nat h <> Z.to_nat h0) by (intros E; congruence).
        exists h0, s0. repeat split; [| |done].
        -- unfold lookup_slot. rewrite Hi1, Hsh1, Hil1, Hv1.
           eapply probe_frame; eauto; try lia.
           pose proof (Inv_hash_range ws (WriteSetEntry.addr e) HI). lia.
        -- rewrite Hi1. by rewrite list_lookup_insert_ne.
      * apply list_lookup_singleton_Some in He as [Hk0 <-].
        exists h, (index_t.mk (version ws) (WriteSetEntry.addr log) (lsize ws)).
        repeat split.
        -- unfold lookup_slot. rewrite Hi1, Hsh1, Hil1, Hv1.
           apply probe_claim; [lia|lia|exact Hr].
        -- rewrite Hi1. apply list_lookup_insert_eq. by eapply lookup_lt_Some.
        -- simpl. lia.
Qed.

(** * writeback and validate on the entry list *)

Lemma writeback_loop_app es es' m :
  writeback_loop (es ++ es') m = writeback_loop es' (writeback_loop es m).
Proof. revert m. induction es as [|e es IH]; intros m; simpl; [done|apply IH]. Qed.

Lemma writeback_loop_replay es m :
  writeback_loop es m = replay m (writeback_stores es).
Proof.
  revert m. induction es as [|e es IH]; intros m; simpl; [done|].
  by rewrite IH.
Qed.

Lemma writeback_stores_app es es' :
  writeback_stores (es ++ es') = writeback_stores es ++ writeback_stores es'.
Proof. induction es as [|e es IH]; simpl; [done|by rewrite IH]. Qed.

(** Words in the byte-addressed memory. *)

Lemma store_inside m a v x :
  a <= x < a + 8 -> store m a v x = byte_of v (x - a).
Proof.
  intros H. unfold store.
  destruct (a <=? x) eqn:E1; [|apply Z.leb_gt in E1; lia].
  destruct (x <? a + 8) eqn:E2; [done|apply Z.ltb_ge in E2; lia].
Qed.

Lemma store_outside m a v x :
  x < a \/ a + 8 <= x -> store m a v x = m x.
Proof.
  intros H. unfold store.
  destruct (a <=? x) eqn:E1; [|done]. apply Z.leb_le in E1.
  destruct (x <? a + 8) eqn:E2; [apply Z.ltb_lt in E2; lia|done].
Qed.

Lemma bytes_of_word v :
  0 <= v < 2 ^ 64 ->
  byte_of v 0 + byte_of v 1 * 2 ^ 8 + byte_of v 2 * 2 ^ 16
  + byte_of v 3 * 2 ^ 24 + byte_of v 4 * 2 ^ 32 + byte_of v 5 * 2 ^ 40
  + byte_of v 6 * 2 ^ 48 + byte_of v 7 * 2 ^ 56 = v.
Proof.
  intros Hv. unfold byte_of.
  change (2 ^ (8 * 0)) with 1. change (2 ^ (8 * 1)) with 256.
  change (2 ^ (8 * 2)) with (256 * 256).
  change (2 ^ (8 * 3)) with (256 * 256 * 256).
  change (2 ^ (8 * 4)) with (256 * 256 * 256 * 256).
  change (2 ^ (8 * 5)) with (256 * 256 * 256 * 256 * 256).
  change (2 ^ (8 * 6)) with (256 * 256 * 256 * 256 * 256 * 256).
  change (2 ^ (8 * 7)) with (256 * 256 * 256 * 256 * 256 * 256 * 256).
  rewrite Z.div_1_r. rewrite <- !Z.div_div by lia.
  assert (Z64 : v / 256 / 256 / 256 / 256 / 256 / 256 / 256 / 256 = 0).
  { rewrite !Z.div_div by lia. apply Z.div_small. lia. }
  set (q1 := v / 256) in *. set (q2 := q1 / 256) in *.
  set (q3 := q2 / 256) in *. set (q4 := q3 / 256) in *.
  set (q5 := q4 / 256) in *. set (q6 := q5 / 256) in *.
  set (q7 := q6 / 256) in *.
  pose proof (Z.div_mod v 256 ltac:(lia)) as H0.
  pose proof (Z.div_mod q1 256 ltac:(lia)) as H1.
  pose proof (Z.div_mod q2 256 ltac:(lia)) as H2.
  pose proof (Z.div_mod q3 256 ltac:(lia)) as H3.
  pose proof (Z.div_mod q4 256 ltac:(lia)) as H4.
  pose proof (Z.div_mod q5 256 ltac:(lia)) as H5.
  pose proof (Z.div_mod q6 256 ltac:(lia)) as H6.
  pose proof (Z.div_mod q7 256 ltac:(lia)) as H7.
  fold q1 in H0. fold q2 in H1. fold q3 in H2. fold q4 in H3.
  fold q5 in H4. fold q6 in H5. fold q7 in H6. rewrite Z64 in H7.
  change (2 ^ 8) with 256. change (2 ^ 16) with 65536.
  change (2 ^ 24) with 16777216. change (2 ^ 32) with 4294967296.
  change (2 ^ 40) with 1099511627776. change (2 ^ 48) with 281474976710656.
  change (2 ^ 56) with 72057594037927936.
  lia.
Qed.

Lemma load_store_same m a v : 0 <= v < 2 ^ 64 -> load (store m a v) a = v.
Proof.
  intros Hv. unfold load.
  rewrite !store_inside by lia.
  replace (a - a) with 0 by lia. replace (a + 1 - a) with 1 by lia.
  replace (a + 2 - a) with 2 by lia. replace (a + 3 - a) with 3 by lia.
  replace (a + 4 - a) with 4 by lia. replace (a + 5 - a) with 5 by lia.
  replace (a + 6 - a) with 6 by lia. replace (a + 7 - a) with 7 by lia.
  by apply bytes_of_word.
Qed.

Lemma load_store_apart m a v b : apart a b -> load (store m a v) b = load m b.
Proof.
  unfold apart. intros H. unfold load. rewrite !store_outside by lia. done.
Qed.

Lemma aligned_apart a b : a mod 8 = 0 -> b mod 8 = 0 -> a <> b -> apart a b.
Proof.
  intros Ha Hb Hne. unfold apart.
  pose proof (Z.div_mod a 8 ltac:(lia)). pose proof (Z.div_mod b 8 ltac:(lia)).
  lia.
Qed.

Lemma aligned_pairwise_apart l :
  NoDup l -> Forall (fun a => a mod 8 = 0) l -> pairwise_apart l.
Proof.
  induction 1 as [|a l Hn _ IH]; intros Hal; simpl; [done|].
  apply Forall_cons in Hal as [Ha Hal]. split; [|by apply IH].
  apply Forall_forall. intros b Hb.
  apply aligned_apart; [|done|by intros ->].
  rewrite Forall_forall in Hal. by apply Hal.
Qed.

Lemma writeback_loop_far es m a :
  Forall (fun e => apart (WriteSetEntry.addr e) a) es ->
  load (writeback_loop es m) a = load m a.
Proof.
  intros H. revert m. induction H as [|e es He _ IH]; intros m; simpl; [done|].
  rewrite IH. unfold WriteSetEntry.writeback. by apply load_store_apart.
Qed.

Lemma writeback_loop_last es e m :
  0 <= WriteSetEntry.val e < 2 ^ 64 ->
  load (writeback_loop (es ++ [e]) m) (WriteSetEntry.addr e)
  = WriteSetEntry.val e.
Proof.
  intros Hv. rewrite writeback_loop_app. simpl.
  unfold WriteSetEntry.writeback. by apply load_store_same.
Qed.

Lemma writeback_loop_apart es m e :
  pairwise_apart (WriteSetEntry.addr <$> es) ->
  Forall (fun e => 0 <= WriteSetEntry.val e < 2 ^ 64) es ->
  e ∈ es ->
  load (writeback_loop es m) (WriteSetEntry.addr e) = WriteSetEntry.val e.
Proof.
  revert m. induction es as [|e0 es IH]; intros m Hpa Hw Hin.
  - by apply elem_of_nil in Hin.
  - rewrite fmap_cons in Hpa. destruct Hpa as [Hfar Hpa].
    apply Forall_cons in Hw as [Hw0 Hw].
    apply elem_of_cons in Hin as [-> | Hin]; simpl.
    + rewrite writeback_loop_far.
      * unfold WriteSetEntry.writeback. by apply load_store_same.
      * apply Forall_forall. intros e He.
        rewrite Forall_forall in Hfar. apply Hfar.
        by apply list_elem_of_fmap_2.
    + by apply IH.
Qed.

Lemma validate_loop_true es m :
  (forall e, e ∈ es -> load m (WriteSetEntry.addr e) = WriteSetEntry.val e) ->
  validate_loop es m = true.
Proof.
  induction es as [|e es IH]; intros H; simpl; [done|].
  unfold WriteSetEntry.validate.
  rewrite (H e) by (by left). rewrite Z.eqb_refl. simpl.
  apply IH. intros e' He'. apply H. by right.
Qed.

(** C3 as amended: after a writeback the word at the address of every entry
    in use holds the entry's value and validate returns true, when the
    addresses of the entries in use (inside the array) are pairwise at least
    8 apart, so that no two of their words share a byte, and the values are
    64-bit words.  Distinct 8-byte aligned addresses are that far apart. *)
Theorem writeback_then_validate_apart (ws : WriteSet) (m : memory) :
  (Z.to_nat (lsize ws) <= length (list_ ws))%nat ->
  pairwise_apart (WriteSetEntry.addr <$> entries ws) ->
  Forall (fun e => 0 <= WriteSetEntry.val e < 2 ^ 64) (entries ws) ->
  ((forall e, e ∈ entries ws ->
      load (writeback ws m) (WriteSetEntry.addr e) = WriteSetEntry.val e) /\
   validate ws (writeback ws m) = true) /\
  (NoDup (WriteSetEntry.addr <$> entries ws) ->
   Forall (fun e => WriteSetEntry.addr e mod 8 = 0) (entries ws) ->
   pairwise_apart (WriteSetEntry.addr <$> entries ws)).
Proof.
  intros _ Hpa Hw.
  assert (H : forall e, e ∈ entries ws ->
            load (writeback ws m) (WriteSetEntry.addr e) = WriteSetEntry.val e).
  { intros e He. unfold writeback. by apply writeback_loop_apart. }
  split; [split; [exact H|]; unfold validate; by apply validate_loop_true|].
  intros Hnd Hal. apply aligned_pairwise_apart; [done|].
  by apply Forall_fmap.
Qed.

(** * reset: the logical clear and the version overflow *)

Lemma reset_unfold ws :
  reset ws =
  if wrap (version ws + 1) =? 0
  then reset_internal (set_version (set_lsize ws 0) (wrap (version ws + 1)))
  else set_version (set_lsize ws 0) (wrap (version ws + 1)).
Proof.
  unfold reset.
  change (version (set_version (set_lsize ws 0)
                     (wrap (version (set_lsize ws 0) + 1))))
    with (wrap (version ws + 1)).
  change (version (set_lsize ws 0)) with (version ws).
  by destruct (wrap (version ws + 1) =? 0).
Qed.

Lemma reset_lsize ws : lsize (reset ws) = 0.
Proof. rewrite reset_unfold. by destruct (wrap (version ws + 1) =? 0). Qed.

Lemma find_empty ws log :
  Inv ws -> lsize ws = 0 -> find ws log = Some (false, log).
Proof.
  intros HI H0. pose proof (find_spec ws log HI) as Hf.
  destruct (lookup_slot ws (WriteSetEntry.addr log)) as [[h|h]|] eqn:Hr;
    [|done|done].
  destruct (Inv_hit ws _ h HI Hr) as (s & e & _ & _ & _ & Hi & _). lia.
Qed.

(** C5: after reset, size is 0 and find reports not-found for every
    address; unless the version overflows, reset touches nothing but the
    size and the version counter. *)
Theorem reset_clears (ws : WriteSet) :
  Inv ws ->
  size (reset ws) = 0 /\
  (forall log, find (reset ws) log = Some (false, log)) /\
  (version ws + 1 < 2 ^ 64 ->
   reset ws = mkWriteSet (index ws) (shift ws) (ilength ws) (version ws + 1)
                         (list_ ws) (capacity ws) 0).
Proof.
  intros HI. split; [apply reset_lsize|]. split.
  - intros log. apply find_empty; [by apply Inv_reset|apply reset_lsize].
  - intros Hv. pose proof (inv_version _ HI). rewrite reset_unfold.
    rewrite wrap_small by lia.
    destruct (version ws + 1 =? 0) eqn:E; [apply Z.eqb_eq in E; lia|done].
Qed.

(** C8: reset adds one to the version modulo 2^64; the physical clear runs
    exactly when the version wraps to 0, and then the set is a well-formed
    empty set again; otherwise the index and the list are not touched. *)
Theorem reset_version_overflow (ws : WriteSet) :
  Inv ws ->
  (version ws < 2 ^ 64 - 1 ->
     reset ws = set_version (set_lsize ws 0) (version ws + 1) /\
     index (reset ws) = index ws /\ list_ (reset ws) = list_ ws) /\
  (version ws = 2 ^ 64 - 1 ->
     wrap (version ws + 1) = 0 /\
     reset ws = reset_internal (set_version (set_lsize ws 0) 0) /\
     index (reset ws) = replicate (Z.to_nat (ilength ws)) index_t.init /\
     version (reset ws) = 1 /\ list_ (reset ws) = list_ ws) /\
  Inv (reset ws) /\ size (reset ws) = 0.
Proof.
  intros HI. pose proof (inv_version _ HI) as Hv.
  split; [|split; [|split; [by apply Inv_reset|apply reset_lsize]]].
  - intros Hlt. rewrite reset_unfold. rewrite wrap_small by lia.
    destruct (version ws + 1 =? 0) eqn:E; [apply Z.eqb_eq in E; lia|done].
  - intros He. rewrite reset_unfold, He.
    change (wrap (2 ^ 64 - 1 + 1)) with 0. done.
Qed.

Lemma Inv_advance ws v :
  Inv ws -> version ws < v < 2 ^ 64 -> Inv (set_version ws v).
Proof.
  intros HI Hv. pose proof (inv_version _ HI) as Hver.
  assert (Hnone : Forall (fun s => live v s = false) (index ws)).
  { eapply Forall_impl; [apply (inv_slots _ HI)|].
    intros s Hs. unfold live. apply Z.eqb_neq. simpl in Hs. lia. }
  pose proof (Inv_lsize_bounds _ HI) as [Hl0 _].
  destruct HI as [H1 H2 H3 H4 H5 H6 H7 H8 H9 H10].
  split; simpl; try done.
  - lia.
  - eapply Forall_impl; [apply H5|]. simpl. intros; lia.
  - rewrite live_count_none by done. lia.
  - intros j s Hs Hl. rewrite Forall_lookup in Hnone.
    specialize (Hnone _ _ Hs). simpl in Hnone. congruence.
Qed.

(** * remove: what it leaves alone *)

(** C10: remove leaves the list, the count and the current version alone;
    it either changes nothing or lowers by one the version of one slot, a
    live slot that holds the address; when no live slot holds the address,
    the state is unchanged. *)
Theorem remove_frame (ws : WriteSet) (log : WriteSetEntry.t) :
  Inv ws ->
  exists ws',
    remove ws log = Some ws' /\
    list_ ws' = list_ ws /\ lsize ws' = lsize ws /\
    capacity ws' = capacity ws /\ version ws' = version ws /\
    shift ws' = shift ws /\ ilength ws' = ilength ws /\
    (ws' = ws \/
     exists h s,
       index ws !! Z.to_nat h = Some s /\
       live (version ws) s = true /\
       index_t.address s = WriteSetEntry.addr log /\
       index ws' =
         <[Z.to_nat h := index_t.mk (index_t.version s - 1)
                                    (index_t.address s) (index_t.index s)]>
           (index ws)) /\
    ((forall (j : nat) s, index ws !! j = Some s -> live (version ws) s = true ->
                          index_t.address s <> WriteSetEntry.addr log) ->
     ws' = ws).
Proof.
  intros HI. pose proof (remove_spec ws log HI) as Hsp.
  destruct (lookup_slot ws (WriteSetEntry.addr log)) as [[h|h]|] eqn:Hr;
    [| |done].
  - destruct Hsp as (s & Hs & Hl & Ha & Hrm).
    eexists. split; [exact Hrm|]. simpl. repeat split; try done.
    + right. by exists h, s.
    + intros Hno. exfalso. by eapply Hno.
  - exists ws. repeat split; try done. by left.
Qed.

(** * The hash: which bits of the product *)

(** C6 as amended: the hash is the top [32 - sh] bits of the low 32-bit
    half of the 64-bit product with the odd constant 2654435769; it is
    below [2 ^ (32 - sh)], the index capacity, and depends on the low 32
    bits of the key only. *)
Theorem hash_top_of_low_word (sh key : Z) :
  0 <= sh <= 32 ->
  hash sh key = ((key * 2654435769) mod 2 ^ 64 mod 2 ^ 32) / 2 ^ sh /\
  0 <= hash sh key < 2 ^ (32 - sh) /\
  hash sh key = hash sh (key mod 2 ^ 32) /\
  Z.odd 2654435769 = true /\
  (forall ws, Inv ws -> 0 <= hash (shift ws) key < ilength ws).
Proof.
  intros Hsh. split; [apply hash_low32; lia|].
  split; [by apply hash_range|]. split; [|split; [done|]].
  - rewrite !hash_low32 by lia. f_equal. unfold wrap.
    change (2 ^ 64) with (2 ^ 32 * 2 ^ 32).
    rewrite !Z.rem_mul_r by lia.
    rewrite !(Z.mul_comm (2 ^ 32)), !Z.mod_add by lia.
    rewrite !Z.mod_mod by lia.
    by rewrite (Zmult_mod_idemp_l key).
  - intros ws HI. by apply Inv_hash_range.
Qed.

(** * insert twice *)

Lemma find_not_found ws log r :
  Inv ws -> find ws log = Some (false, r) ->
  exists h, lookup_slot ws (WriteSetEntry.addr log) = Some (Free h).
Proof.
  intros HI Hf. pose proof (find_spec ws log HI) as Hsp.
  destruct (lookup_slot ws (WriteSetEntry.addr log)) as [[h|h]|];
    [|by exists h|done].
  destruct Hsp as (s & e & _ & _ & _ & Hfind). congruence.
Qed.

Lemma find_found ws log r :
  Inv ws -> find ws log = Some (true, r) ->
  exists h s e,
    lookup_slot ws (WriteSetEntry.addr log) = Some (Hit h) /\
    index ws !! Z.to_nat h = Some s /\
    live (version ws) s = true /\
    0 <= index_t.index s < lsize ws /\
    entries ws !! Z.to_nat (index_t.index s) = Some e /\
    WriteSetEntry.addr e = WriteSetEntry.addr log /\
    r = WriteSetEntry.mk (WriteSetEntry.addr log) (WriteSetEntry.val e).
Proof.
  intros HI Hf. pose proof (find_spec ws log HI) as Hsp.
  destruct (lookup_slot ws (WriteSetEntry.addr log)) as [[h|h]|] eqn:Hr;
    [|congruence|done].
  destruct Hsp as (s & e & Hs & He & Ha & Hfind).
  destruct (Inv_hit ws _ h HI Hr) as (s' & e' & Hs' & Hl' & _ & Hi' & _).
  rewrite Hs in Hs'. injection Hs' as <-.
  exists h, s, e. repeat split; try done; try lia. congruence.
Qed.

Lemma find_after_update ws log h s e x :
  Inv ws -> lookup_slot ws (WriteSetEntry.addr log) = Some (Hit h) ->
  index ws !! Z.to_nat h = Some s ->
  entries ws !! Z.to_nat (index_t.index s) = Some e ->
  find (set_list ws (<[Z.to_nat (index_t.index s) :=
                         WriteSetEntry.update e log]> (list_ ws)))
       (WriteSetEntry.mk (WriteSetEntry.addr log) x)
  = Some (true, WriteSetEntry.mk (WriteSetEntry.addr log)
                                 (WriteSetEntry.val log)).
Proof.
  intros HI Hr Hs He.
  set (ws2 := set_list ws _).
  assert (HI2 : Inv ws2) by (by eapply Inv_update).
  destruct (entries_lookup _ _ _ He) as [_ Hk].
  pose proof (find_spec ws2 (WriteSetEntry.mk (WriteSetEntry.addr log) x) HI2)
    as Hsp.
  change (lookup_slot ws2 _) with (lookup_slot ws (WriteSetEntry.addr log))
    in Hsp.
  rewrite Hr in Hsp. destruct Hsp as (s' & e' & Hs' & He' & _ & Hfind).
  change (index ws2) with (index ws) in Hs'.
  rewrite Hs in Hs'. injection Hs' as <-.
  unfold ws2 in He'. rewrite entries_update in He' by done.
  rewrite list_lookup_insert_eq in He' by (by eapply lookup_lt_Some).
  injection He' as <-. exact Hfind.
Qed.

Lemma entries_update_addr ws (k : nat) e log :
  entries ws !! k = Some e ->
  WriteSetEntry.addr <$>
    entries (set_list ws (<[k := WriteSetEntry.update e log]> (list_ ws)))
  = WriteSetEntry.addr <$> entries ws.
Proof.
  intros He. destruct (entries_lookup _ _ _ He) as [_ Hk].
  rewrite entries_update by done. rewrite list_fmap_insert. simpl.
  apply list_insert_id. by rewrite list_lookup_fmap, He.
Qed.

(** C1: an insert at an address that find does not report appends an entry
    and returns false; the next insert at this address returns true,
    replaces the value find reports, and stores no second entry. *)
Theorem insert_twice_coalesces (ws : WriteSet) (a v1 v2 : Z) :
  Inv ws -> can_grow ws ->
  find ws (WriteSetEntry.mk a v1) = Some (false, WriteSetEntry.mk a v1) ->
  exists ws1 ws2,
    insert ws (WriteSetEntry.mk a v1) = Some (ws1, false) /\
    size ws1 = size ws + 1 /\
    entries ws1 = entries ws ++ [WriteSetEntry.mk a v1] /\
    (exists v, find ws1 (WriteSetEntry.mk a v1)
               = Some (true, WriteSetEntry.mk a v)) /\
    insert ws1 (WriteSetEntry.mk a v2) = Some (ws2, true) /\
    (forall x, find ws2 (WriteSetEntry.mk a x)
               = Some (true, WriteSetEntry.mk a v2)) /\
    size ws2 = size ws1 /\
    WriteSetEntry.addr <$> entries ws2 = WriteSetEntry.addr <$> entries ws1.
Proof.
  intros HI Hg Hf.
  destruct (find_not_found _ _ _ HI Hf) as [h Hr].
  destruct (insert_new_spec ws _ h HI Hg Hr)
    as (ws1 & Hins1 & HI1 & Hes1 & Hls1 & [h' Hr1] & _).
  simpl in Hr1.
  destruct (insert_hit ws1 (WriteSetEntry.mk a v2) h' HI1 Hr1)
    as (s & e & Hs & Hi & He & Ha & Hins2).
  eexists ws1, _. split; [exact Hins1|]. split; [exact Hls1|].
  split; [exact Hes1|]. split.
  { pose proof (find_spec ws1 (WriteSetEntry.mk a v1) HI1) as Hsp.
    simpl in Hsp. rewrite Hr1 in Hsp.
    destruct Hsp as (s1 & e1 & _ & _ & _ & Hfind). eauto. }
  split; [exact Hins2|]. split; [|split; [done|]].
  - intros x.
    apply (find_after_update ws1 (WriteSetEntry.mk a v2) h' s e x HI1 Hr1 Hs He).
  - by apply entries_update_addr.
Qed.

(** * The load factor *)

(** C7: after an insert three times the number of entries in use is below
    the index capacity, a slot that is not live exists, and the capacity
    was doubled when the count times 3 reached it. *)
Theorem insert_keeps_load_factor (ws : WriteSet) (log : WriteSetEntry.t) :
  Inv ws -> can_grow ws ->
  exists ws' b,
    insert ws log = Some (ws', b) /\
    lsize ws' * 3 < ilength ws' /\
    (exists (j : nat) s,
        index ws' !! j = Some s /\ live (version ws') s = false) /\
    (if negb b && ((lsize ws + 1) * 3 >=? ilength ws)
     then ilength ws' = 2 * ilength ws
     else ilength ws' = ilength ws) /\
    Inv ws'.
Proof.
  intros HI Hg.
  destruct (lookup_slot_total ws (WriteSetEntry.addr log) HI) as [[h|h] Hr].
  - destruct (insert_hit ws log h HI Hr) as (s & e & _ & _ & He & _ & Hins).
    pose proof (Inv_update ws _ e log HI He) as HI'.
    eexists _, true. split; [exact Hins|].
    split; [apply (inv_load _ HI')|]. split; [by apply Inv_free_slot|].
    split; [done|exact HI'].
  - destruct (insert_new_spec ws log h HI Hg Hr)
      as (ws' & Hins & HI' & _ & _ & _ & Hcase).
    exists ws', false. split; [exact Hins|].
    split; [apply (inv_load _ HI')|]. split; [by apply Inv_free_slot|].
    split; [|exact HI']. simpl.
    destruct ((lsize ws + 1) * 3 >=? ilength ws); [apply Hcase|].
    by destruct Hcase as (_ & _ & ? & _).
Qed.

(** * remove, then insert *)

Lemma writeback_stores_lookup es (k : nat) e :
  es !! k = Some e ->
  writeback_stores es !! k = Some (WriteSetEntry.addr e, WriteSetEntry.val e).
Proof.
  revert k. induction es as [|e0 es IH]; intros k; [done|].
  destruct k as [|k]; simpl; [by intros [= ->]|apply IH].
Qed.

Lemma length_writeback_stores es : length (writeback_stores es) = length es.
Proof. induction es as [|e es IH]; simpl; [done|by rewrite IH]. Qed.

(** * writeback and validate do not look at the index *)

Lemma validate_loop_sound es m :
  validate_loop es m = true ->
  forall e, e ∈ es -> load m (WriteSetEntry.addr e) = WriteSetEntry.val e.
Proof.
  induction es as [|e0 es IH]; intros Hv e He.
  - by apply elem_of_nil in He.
  - simpl in Hv. unfold WriteSetEntry.validate in Hv.
    destruct (load m (WriteSetEntry.addr e0) =? WriteSetEntry.val e0) eqn:E;
      [|done].
    apply elem_of_cons in He as [-> | He]; [by apply Z.eqb_eq|by apply IH].
Qed.

Lemma remove_keeps_entries ws log :
  Inv ws ->
  exists ws', remove ws log = Some ws' /\ entries ws' = entries ws /\
              lsize ws' = lsize ws /\ Inv ws'.
Proof.
  intros HI. pose proof (remove_spec ws log HI) as Hsp.
  destruct (lookup_slot ws (WriteSetEntry.addr log)) as [[h|h]|]; [| |done].
  - destruct Hsp as (s & Hs & Hl & _ & Hrm).
    eexists. split; [exact Hrm|]. split; [done|]. split; [done|].
    by apply Inv_invalidate.
  - by exists ws.
Qed.

(** C4 as amended: writeback stores the value of every entry in use, in
    insertion order, and validate checks every entry in use, whether or not
    a live slot points at the entry; remove changes neither. *)
Theorem writeback_validate_every_entry (ws : WriteSet) (log : WriteSetEntry.t) :
  Inv ws ->
  (forall m, writeback ws m = replay m (writeback_stores (entries ws))) /\
  (forall m, validate ws m = true <->
             forall e, e ∈ entries ws ->
                       load m (WriteSetEntry.addr e) = WriteSetEntry.val e) /\
  exists ws',
    remove ws log = Some ws' /\
    entries ws' = entries ws /\
    (forall m, writeback ws' m = writeback ws m) /\
    (forall m, validate ws' m = validate ws m).
Proof.
  intros HI. split; [|split].
  - intros m. apply writeback_loop_replay.
  - intros m. split; [apply validate_loop_sound|apply validate_loop_true].
  - destruct (remove_keeps_entries ws log HI) as (ws' & Hrm & Hes & _).
    exists ws'. split; [exact Hrm|]. split; [exact Hes|].
    split; intros m; unfold writeback, validate; by rewrite Hes.
Qed.

(** * Sequences of operations *)

Lemma step_spec ws o :
  Inv ws -> can_grow ws ->
  exists ws' (b : bool),
    step ws o = Some (ws', b) /\ Inv ws' /\
    lsize ws' = lsize ws + (if b then 1 else 0) /\
    (is_remove o = false -> reach ws ->
     reach ws' /\
     forall a, a ∈ addresses ws' <-> a ∈ addresses ws \/ a ∈ inserted [o]).
Proof.
  intros HI Hg. destruct o as [a v|a|a]; simpl.
  - (* insert *)
    destruct (lookup_slot_total ws a HI) as [[h|h] Hr].
    + destruct (insert_hit ws (WriteSetEntry.mk a v) h HI Hr)
        as (s & e & Hs & Hi & He & Ha & Hins).
      rewrite Hins. simpl. eexists _, false.
      split; [done|]. split; [by eapply Inv_update|]. split; [simpl; lia|].
      intros _ HR. split.
      * exact (reach_insert ws _ _ _ HI HR Hg Hins).
      * intros a'. unfold addresses. rewrite entries_update_addr by done.
        split; [by left|]. intros [?|Hin]; [done|].
        apply list_elem_of_singleton in Hin as ->.
        apply list_elem_of_fmap. exists e. split; [by rewrite Ha|].
        by eapply list_elem_of_lookup_2.
    + destruct (insert_new_spec ws (WriteSetEntry.mk a v) h HI Hg Hr)
        as (ws' & Hins & HI' & Hes & Hls & _).
      rewrite Hins. simpl. exists ws', true.
      split; [done|]. split; [done|]. split; [done|].
      intros _ HR. split.
      * exact (reach_insert ws _ _ _ HI HR Hg Hins).
      * intros a'. unfold addresses. rewrite Hes, fmap_app. simpl.
        by rewrite elem_of_app.
  - (* find *)
    pose proof (find_spec ws (WriteSetEntry.mk a 0) HI) as Hsp.
    assert (exists r, find ws (WriteSetEntry.mk a 0) = Some r) as [r Hf].
    { destruct (lookup_slot ws _) as [[h|h]|]; [| |done].
      - destruct Hsp as (s & e & _ & _ & _ & Hf). eauto.
      - eauto. }
    rewrite Hf. simpl. exists ws, false.
    split; [done|]. split; [done|]. split; [lia|].
    intros _ HR. split; [done|]. intros a'. split; [by left|].
    intros [?|Hin]; [done|]. by apply elem_of_nil in Hin.
  - (* remove *)
    destruct (remove_keeps_entries ws (WriteSetEntry.mk a 0) HI)
      as (ws' & Hrm & _ & Hls & HI').
    rewrite Hrm. simpl. exists ws', false.
    split; [done|]. split; [done|]. split; [lia|]. done.
Qed.

Lemma inserted_cons o ops : inserted (o :: ops) = inserted [o] ++ inserted ops.
Proof. by destruct o. Qed.

Lemma run_spec ops : forall ws,
  Inv ws -> 3 * (lsize ws + Z.of_nat (length ops)) < 2 ^ 32 ->
  exists ws' n,
    run ws ops = Some (ws', n) /\ Inv ws' /\
    lsize ws' = lsize ws + n /\
    (forallb (fun o => negb (is_remove o)) ops = true -> reach ws ->
     reach ws' /\
     forall a, a ∈ addresses ws' <-> a ∈ addresses ws \/ a ∈ inserted ops).
Proof.
  induction ops as [|o ops IH]; intros ws HI Hroom.
  - exists ws, 0. simpl. split; [done|]. split; [done|]. split; [lia|].
    intros _ HR. split; [done|]. intros a. split; [by left|].
    intros [?|Hin]; [done|]. by apply elem_of_nil in Hin.
  - simpl length in Hroom.
    assert (Hg : can_grow ws) by (unfold can_grow; lia).
    destruct (step_spec ws o HI Hg) as (ws1 & b & Hst & HI1 & Hls1 & Hre1).
    destruct (IH ws1 HI1) as (ws2 & n & Hrun & HI2 & Hls2 & Hre2).
    { rewrite Hls1. destruct b; lia. }
    exists ws2, ((if b then 1 else 0) + n).
    split; [|split; [done|split; [lia|]]].
    + simpl. rewrite Hst, Hrun. done.
    + intros Hnr HR. simpl in Hnr. apply andb_true_iff in Hnr as [Ho Hops].
      apply negb_true_iff in Ho.
      destruct (Hre1 Ho HR) as [HR1 Hin1].
      destruct (Hre2 Hops HR1) as [HR2 Hin2].
      split; [done|]. intros a.
      rewrite Hin2, (inserted_cons o ops), elem_of_app, Hin1. tauto.
Qed.

Lemma live_addresses_entries ws a :
  Inv ws -> reach ws -> a ∈ live_addresses ws <-> a ∈ addresses ws.
Proof.
  intros HI HR. unfold live_addresses. rewrite elem_of_remove_dups.
  rewrite list_elem_of_fmap. split.
  - intros (s & -> & Hin). apply list_elem_of_filter in Hin as [Hl Hin].
    apply list_elem_of_lookup in Hin as [j Hj].
    destruct (inv_sound _ HI _ _ Hj Hl) as (_ & e & He & Ha).
    apply list_elem_of_fmap. exists e. split; [done|].
    by eapply list_elem_of_lookup_2.
  - intros Hin. apply (reach_found ws a HI HR) in Hin as [h Hh].
    unfold lookup_slot in Hh.
    destruct (probe_hit _ _ _ _ _ _ _ Hh) as (s & Hs & Hl & Ha).
    exists s. split; [done|]. apply list_elem_of_filter. split; [done|].
    by eapply list_elem_of_lookup_2.
Qed.

(** C2 as amended: size is the number of entries appended since the reset
    (the inserts that returned false); remove never changes it; when no
    remove was performed, it is the number of distinct addresses inserted
    and the number of addresses bound by a live slot. *)
Theorem size_counts_appended_entries (s0 : WriteSet) (ops : list op) :
  Inv s0 -> lsize s0 = 0 -> 3 * Z.of_nat (length ops) < 2 ^ 32 ->
  exists s n,
    run s0 ops = Some (s, n) /\
    size s = n /\
    size s = Z.of_nat (length (entries s)) /\
    (forall a, exists s', remove s (WriteSetEntry.mk a 0) = Some s' /\
                          size s' = size s) /\
    (forallb (fun o => negb (is_remove o)) ops = true ->
     size s = Z.of_nat (length (remove_dups (inserted ops))) /\
     size s = Z.of_nat (length (live_addresses s))).
Proof.
  intros HI H0 Hroom.
  destruct (run_spec ops s0 HI) as (s & n & Hrun & HIs & Hls & Hre); [lia|].
  pose proof (length_entries _ HIs) as Hlen.
  pose proof (Inv_lsize_bounds _ HIs) as [Hge _].
  exists s, n. split; [done|]. unfold size. split; [lia|]. split; [lia|].
  split.
  - intros a.
    destruct (remove_keeps_entries s (WriteSetEntry.mk a 0) HIs)
      as (s' & Hrm & _ & Hl' & _).
    by exists s'.
  - intros Hnr. destruct (Hre Hnr (reach_empty _ H0)) as [HR Hin].
    assert (Hempty : addresses s0 = []).
    { unfold addresses, entries. by rewrite H0. }
    assert (Hnd : NoDup (addresses s)) by (by apply reach_NoDup).
    assert (Hlen' : length (addresses s) = length (entries s))
      by (unfold addresses; by rewrite length_fmap).
    split.
    + rewrite <- (Z2Nat.id (lsize s)) by lia.
      rewrite <- Hlen, <- Hlen'. f_equal. apply Permutation_length.
      apply NoDup_Permutation; [done|apply NoDup_remove_dups|].
      intros a. rewrite elem_of_remove_dups, Hin, Hempty.
      split; [intros [Hx|?]; [by apply elem_of_nil in Hx|done]|by right].
    + rewrite <- (Z2Nat.id (lsize s)) by lia.
      rewrite <- Hlen, <- Hlen'. f_equal. apply Permutation_length.
      apply NoDup_Permutation; [done|apply NoDup_remove_dups|].
      intros a. by rewrite live_addresses_entries.
Qed.

(** * Examples: the scenario of the spec, initial capacity 4 *)

Lemma Inv_exec ws ops :
  Inv ws -> 3 * (lsize ws + Z.of_nat (length ops)) < 2 ^ 32 ->
  Inv (exec ws ops).
Proof.
  intros HI Hroom. unfold exec.
  destruct (run_spec ops ws HI Hroom) as (ws' & n & -> & HI' & _). exact HI'.
Qed.

Lemma Inv_scenario ops :
  3 * Z.of_nat (length ops) < 2 ^ 32 -> Inv (exec (new_WriteSet 4) ops).
Proof.
  intros H. apply Inv_exec; [apply Inv_new; lia|].
  rewrite new_WriteSet_empty. lia.
Qed.

Example scenario_of_the_spec :
  let ws := exec (new_WriteSet 4)
                 [Insert 8 1; Insert 16 2; Insert 24 3; Insert 32 4] in
  let ws' := exec ws [Insert 8 5] in
  ilength ws = 16 /\ size ws = 4 /\
  find ws (WriteSetEntry.mk 8 0) = Some (true, WriteSetEntry.mk 8 1) /\
  find ws (WriteSetEntry.mk 32 0) = Some (true, WriteSetEntry.mk 32 4) /\
  size ws' = 4 /\
  find ws' (WriteSetEntry.mk 8 0) = Some (true, WriteSetEntry.mk 8 5) /\
  size (reset ws') = 0 /\
  find (reset ws') (WriteSetEntry.mk 8 0) = Some (false, WriteSetEntry.mk 8 0).
Proof. vm_compute. repeat split. Qed.

(** * Where the code differs from the specification *)

(** C2: after insert(8, 1) and remove(8) no live slot binds an address, but
    size is still 1. *)
Lemma size_counts_removed_address :
  let ws := exec (new_WriteSet 4) [Insert 8 1; Remove 8] in
  run (new_WriteSet 4) [Insert 8 1; Remove 8] = Some (ws, 1) /\
  live_addresses ws = [] /\
  find ws (WriteSetEntry.mk 8 0) = Some (false, WriteSetEntry.mk 8 0) /\
  size ws = 1 /\
  size ws <> Z.of_nat (length (live_addresses ws)).
Proof. vm_compute. repeat split. discriminate. Qed.

(** C4: the entry of the removed address 8 is written back (the word at 8
    goes from 0 to 1) and it is checked by validate (which fails on the
    memory that holds 0 at 8), although find no longer reports 8. *)
Lemma writeback_writes_removed_entry :
  let ws := exec (new_WriteSet 4) [Insert 8 1; Remove 8] in
  let m0 : memory := fun _ => 0 in
  run (new_WriteSet 4) [Insert 8 1; Remove 8] = Some (ws, 1) /\
  find ws (WriteSetEntry.mk 8 0) = Some (false, WriteSetEntry.mk 8 0) /\
  load m0 8 = 0 /\
  load (writeback ws m0) 8 = 1 /\
  validate ws m0 = false.
Proof. vm_compute. repeat split. Qed.

(** C6: for the key 1 and an index of 16 slots the hash is 9, the top four
    bits of the low word of the product; the top four bits of the 64-bit
    product are 0. *)
Lemma hash_not_high_bits_of_product :
  hash 28 1 = 9 /\ hash_high_bits 28 1 = 0 /\
  hash 28 1 <> hash_high_bits 28 1.
Proof. vm_compute. repeat split. discriminate. Qed.


(** C3: the entries written for the addresses 8 and 12 have distinct
    addresses, but their words share the bytes 12 to 15: after writeback
    the word at 8 is 1 + 2 * 2^32, not the buffered value 1, and validate
    returns false. *)
Lemma writeback_overlapping_words :
  let ws := exec (new_WriteSet 4) [Insert 8 1; Insert 12 2] in
  let m0 : memory := fun _ => 0 in
  run (new_WriteSet 4) [Insert 8 1; Insert 12 2] = Some (ws, 2) /\
  entries ws = [WriteSetEntry.mk 8 1; WriteSetEntry.mk 12 2] /\
  NoDup (WriteSetEntry.addr <$> entries ws) /\
  load (writeback ws m0) 8 = 8589934593 /\
  load (writeback ws m0) 8 <> 1 /\
  load (writeback ws m0) 12 = 2 /\
  validate ws (writeback ws m0) = false.
Proof.
  split; [vm_compute; reflexivity|]. split; [vm_compute; reflexivity|].
  split; [apply (@bool_decide_unpack _ (NoDup_dec _)); vm_compute; exact I|].
  vm_compute. repeat split. discriminate.
Qed.

(** * The theorems on the scenario *)

Lemma insert_twice_coalesces_witness :
  let ws := new_WriteSet 4 in
  exists ws1 ws2,
    insert ws (WriteSetEntry.mk 8 1) = Some (ws1, false) /\
    size ws1 = size ws + 1 /\
    entries ws1 = entries ws ++ [WriteSetEntry.mk 8 1] /\
    (exists v, find ws1 (WriteSetEntry.mk 8 1)
               = Some (true, WriteSetEntry.mk 8 v)) /\
    insert ws1 (WriteSetEntry.mk 8 5) = Some (ws2, true) /\
    (forall x, find ws2 (WriteSetEntry.mk 8 x)
               = Some (true, WriteSetEntry.mk 8 5)) /\
    size ws2 = size ws1 /\
    WriteSetEntry.addr <$> entries ws2 = WriteSetEntry.addr <$> entries ws1.
Proof.
  apply (insert_twice_coalesces (new_WriteSet 4) 8 1 5).
  - apply Inv_new; lia.
  - vm_compute. reflexivity.
  - vm_compute. reflexivity.
Defined.

Lemma size_counts_appended_entries_witness :
  let ops := [Insert 8 1; Insert 16 2; Insert 8 5; Find 8] in
  exists s n,
    run (new_WriteSet 4) ops = Some (s, n) /\
    size s = n /\
    size s = Z.of_nat (length (entries s)) /\
    (forall a, exists s', remove s (WriteSetEntry.mk a 0) = Some s' /\
                          size s' = size s) /\
    (forallb (fun o => negb (is_remove o)) ops = true ->
     size s = Z.of_nat (length (remove_dups (inserted ops))) /\
     size s = Z.of_nat (length (live_addresses s))).
Proof.
  apply (size_counts_appended_entries (new_WriteSet 4)
           [Insert 8 1; Insert 16 2; Insert 8 5; Find 8]).
  - apply Inv_new; lia.
  - vm_compute. reflexivity.
  - vm_compute. reflexivity.
Defined.

Lemma writeback_then_validate_apart_witness :
  let ws := exec (new_WriteSet 4) [Insert 8 1; Insert 16 2] in
  let m0 : memory := fun _ => 0 in
  ((forall e, e ∈ entries ws ->
      load (writeback ws m0) (WriteSetEntry.addr e) = WriteSetEntry.val e) /\
   validate ws (writeback ws m0) = true) /\
  (NoDup (WriteSetEntry.addr <$> entries ws) ->
   Forall (fun e => WriteSetEntry.addr e mod 8 = 0) (entries ws) ->
   pairwise_apart (WriteSetEntry.addr <$> entries ws)).
Proof.
  apply (writeback_then_validate_apart
           (exec (new_WriteSet 4) [Insert 8 1; Insert 16 2]) (fun _ => 0)).
  - vm_compute. lia.
  - change (pairwise_apart [8; 16]). simpl. unfold apart.
    repeat split; repeat constructor; simpl; lia.
  - change (Forall (fun e => 0 <= WriteSetEntry.val e < 2 ^ 64)
              [WriteSetEntry.mk 8 1; WriteSetEntry.mk 16 2]).
    repeat constructor; simpl; lia.
Defined.

Lemma writeback_validate_every_entry_witness :
  let ws := exec (new_WriteSet 4) [Insert 8 1] in
  let log := WriteSetEntry.mk 8 0 in
  (forall m, writeback ws m = replay m (writeback_stores (entries ws))) /\
  (forall m, validate ws m = true <->
             forall e, e ∈ entries ws ->
                       load m (WriteSetEntry.addr e) = WriteSetEntry.val e) /\
  exists ws',
    remove ws log = Some ws' /\
    entries ws' = entries ws /\
    (forall m, writeback ws' m = writeback ws m) /\
    (forall m, validate ws' m = validate ws m).
Proof.
  apply (writeback_validate_every_entry
           (exec (new_WriteSet 4) [Insert 8 1]) (WriteSetEntry.mk 8 0)).
  apply Inv_scenario. vm_compute. reflexivity.
Defined.

Lemma reset_clears_witness :
  let ws := exec (new_WriteSet 4) [Insert 8 1; Insert 16 2] in
  size (reset ws) = 0 /\
  (forall log, find (reset ws) log = Some (false, log)) /\
  (version ws + 1 < 2 ^ 64 ->
   reset ws = mkWriteSet (index ws) (shift ws) (ilength ws) (version ws + 1)
                         (list_ ws) (capacity ws) 0).
Proof.
  apply (reset_clears (exec (new_WriteSet 4) [Insert 8 1; Insert 16 2])).
  apply Inv_scenario. vm_compute. reflexivity.
Defined.

Lemma hash_top_of_low_word_witness :
  hash 28 1 = ((1 * 2654435769) mod 2 ^ 64 mod 2 ^ 32) / 2 ^ 28 /\
  0 <= hash 28 1 < 2 ^ (32 - 28) /\
  hash 28 1 = hash 28 (1 mod 2 ^ 32) /\
  Z.odd 2654435769 = true /\
  (forall ws, Inv ws -> 0 <= hash (shift ws) 1 < ilength ws).
Proof. apply (hash_top_of_low_word 28 1). lia. Defined.

Lemma insert_keeps_load_factor_witness :
  let ws := exec (new_WriteSet 4)
              [Insert 8 1; Insert 16 2; Insert 24 3; Insert 32 4; Insert 40 5] in
  let log := WriteSetEntry.mk 48 6 in
  exists ws' b,
    insert ws log = Some (ws', b) /\
    lsize ws' * 3 < ilength ws' /\
    (exists (j : nat) s,
        index ws' !! j = Some s /\ live (version ws') s = false) /\
    (if negb b && ((lsize ws + 1) * 3 >=? ilength ws)
     then ilength ws' = 2 * ilength ws
     else ilength ws' = ilength ws) /\
    Inv ws'.
Proof.
  apply (insert_keeps_load_factor
           (exec (new_WriteSet 4)
              [Insert 8 1; Insert 16 2; Insert 24 3; Insert 32 4; Insert 40 5])
           (WriteSetEntry.mk 48 6)).
  - apply Inv_scenario. vm_compute. reflexivity.
  - vm_compute. reflexivity.
Defined.

Lemma reset_version_overflow_witness :
  let ws := set_version (new_WriteSet 4) (2 ^ 64 - 1) in
  (version ws < 2 ^ 64 - 1 ->
     reset ws = set_version (set_lsize ws 0) (version ws + 1) /\
     index (reset ws) = index ws /\ list_ (reset ws) = list_ ws) /\
  (version ws = 2 ^ 64 - 1 ->
     wrap (version ws + 1) = 0 /\
     reset ws = reset_internal (set_version (set_lsize ws 0) 0) /\
     index (reset ws) = replicate (Z.to_nat (ilength ws)) index_t.init /\
     version (reset ws) = 1 /\ list_ (reset ws) = list_ ws) /\
  Inv (reset ws) /\ size (reset ws) = 0.
Proof.
  apply (reset_version_overflow (set_version (new_WriteSet 4) (2 ^ 64 - 1))).
  apply Inv_advance; [apply Inv_new; lia|]. vm_compute. split; reflexivity.
Defined.

Lemma remove_frame_witness :
  let ws := exec (new_WriteSet 4) [Insert 8 1; Insert 16 2] in
  let log := WriteSetEntry.mk 8 0 in
  exists ws',
    remove ws log = Some ws' /\
    list_ ws' = list_ ws /\ lsize ws' = lsize ws /\
    capacity ws' = capacity ws /\ version ws' = version ws /\
    shift ws' = shift ws /\ ilength ws' = ilength ws /\
    (ws' = ws \/
     exists h s,
       index ws !! Z.to_nat h = Some s /\
       live (version ws) s = true /\
       index_t.address s = WriteSetEntry.addr log /\
       index ws' =
         <[Z.to_nat h := index_t.mk (index_t.version s - 1)
                                    (index_t.address s) (index_t.index s)]>
           (index ws)) /\
    ((forall (j : nat) s, index ws !! j = Some s -> live (version ws) s = true ->
                          index_t.address s <> WriteSetEntry.addr log) ->
     ws' = ws).
Proof.
  apply (remove_frame (exec (new_WriteSet 4) [Insert 8 1; Insert 16 2])
                      (WriteSetEntry.mk 8 0)).
  apply Inv_scenario. vm_compute. reflexivity.
Defined.

(** * Further properties of the code *)

(** * find reports what is buffered *)

(** X1: when find reports found, the entry it hands back has the queried
    address and is one of the entries in use of the list. *)
Theorem find_reports_buffered_entry (ws : WriteSet) (log r : WriteSetEntry.t) :
  Inv ws -> find ws log = Some (true, r) ->
  WriteSetEntry.addr r = WriteSetEntry.addr log /\
  exists k : nat, (k < Z.to_nat (size ws))%nat /\ entries ws !! k = Some r.
Proof.
  intros HI Hf.
  destruct (find_found _ _ _ HI Hf)
    as (h & s & e & _ & _ & _ & _ & He & Ha & ->).
  simpl. split; [done|].
  exists (Z.to_nat (index_t.index s)).
  split; [by destruct (entries_lookup _ _ _ He)|].
  rewrite He. f_equal. destruct e as [ea ev]. simpl in *. by subst.
Qed.

(** * insert and find probe alike *)

Lemma insert_new_false ws log h ws' b :
  insert_new ws log h = Some (ws', b) -> b = false.
Proof.
  unfold insert_new.
  destruct (negb (lsize ws <? Z.of_nat (length (list_ ws)))); [done|].
  cbv zeta.
  match goal with |- (mbind _ ?x = _) -> _ => destruct x end; simpl; [|done].
  by intros [= _ <-].
Qed.

(** X2: insert returns true exactly when a find called before it reports
    found; an insert that returns false appends its argument to the entries
    in use, and one that returns true keeps their number. *)
Theorem insert_returns_what_find_reports (ws : WriteSet) (log : WriteSetEntry.t) :
  Inv ws -> can_grow ws ->
  exists ws' b r,
    insert ws log = Some (ws', b) /\ find ws log = Some (b, r) /\
    (b = false -> r = log /\ entries ws' = entries ws ++ [log]) /\
    (b = true -> lsize ws' = lsize ws).
Proof.
  intros HI Hg. pose proof (find_spec ws log HI) as Hsp.
  destruct (lookup_slot_total ws (WriteSetEntry.addr log) HI) as [[h|h] Hr];
    rewrite Hr in Hsp.
  - destruct Hsp as (s0 & e0 & _ & _ & _ & Hf).
    destruct (insert_hit ws log h HI Hr) as (s & e & _ & _ & _ & _ & Hins).
    eexists _, true, _. split; [exact Hins|]. split; [exact Hf|].
    split; [done|]. done.
  - destruct (insert_new_spec ws log h HI Hg Hr)
      as (ws' & Hins & _ & Hes & _).
    exists ws', false, log. split; [exact Hins|]. split; [exact Hsp|].
    split; [done|]. done.
Qed.

(** X3: an insert that returns true leaves the index, the count and the
    version alone: it replaces the value of one entry in use whose address
    is the key, and nothing else. *)
Theorem coalescing_insert_changes_one_value
    (ws ws' : WriteSet) (log : WriteSetEntry.t) :
  Inv ws -> insert ws log = Some (ws', true) ->
  index ws' = index ws /\ lsize ws' = lsize ws /\ version ws' = version ws /\
  capacity ws' = capacity ws /\ shift ws' = shift ws /\
  ilength ws' = ilength ws /\
  exists (k : nat) e,
    entries ws !! k = Some e /\
    WriteSetEntry.addr e = WriteSetEntry.addr log /\
    list_ ws' =
      <[k := WriteSetEntry.mk (WriteSetEntry.addr e) (WriteSetEntry.val log)]>
        (list_ ws).
Proof.
  intros HI Hins.
  destruct (lookup_slot_total ws (WriteSetEntry.addr log) HI) as [[h|h] Hr].
  - destruct (insert_hit ws log h HI Hr) as (s & e & _ & _ & He & Ha & Hins').
    rewrite Hins' in Hins. injection Hins as <-. simpl.
    repeat split. by exists (Z.to_nat (index_t.index s)), e.
  - exfalso. unfold insert in Hins. rewrite insert_loop_probe in Hins.
    unfold lookup_slot in Hr. rewrite Hr in Hins.
    by apply insert_new_false in Hins.
Qed.

(** * remove *)

Lemma remove_hit ws log h :
  Inv ws -> lookup_slot ws (WriteSetEntry.addr log) = Some (Hit h) ->
  exists ws1,
    remove ws log = Some ws1 /\ Inv ws1 /\
    lookup_slot ws1 (WriteSetEntry.addr log) = Some (Free h) /\
    entries ws1 = entries ws /\ lsize ws1 = lsize ws.
Proof.
  intros HI Hr. pose proof (remove_spec ws log HI) as Hrm.
  rewrite Hr in Hrm. destruct Hrm as (s & Hs & Hl & _ & Hrm).
  eexists. split; [exact Hrm|]. split; [by apply Inv_invalidate|].
  split; [|done].
  unfold lookup_slot. simpl. apply probe_invalidate; [|exact Hr].
  unfold live in *. simpl. apply Z.eqb_eq in Hl. apply Z.eqb_neq. lia.
Qed.

(** X4: after remove at an address that find reports, find reports
    not-found for it and hands the query back unchanged, while size and the
    entries in use are as before. *)
Theorem remove_then_find_not_found (ws : WriteSet) (log r : WriteSetEntry.t) :
  Inv ws -> find ws log = Some (true, r) ->
  exists ws1,
    remove ws log = Some ws1 /\
    find ws1 log = Some (false, log) /\
    size ws1 = size ws /\ entries ws1 = entries ws.
Proof.
  intros HI Hf.
  destruct (find_found _ _ _ HI Hf) as (h & _ & _ & Hr & _).
  destruct (remove_hit ws log h HI Hr) as (ws1 & Hrm & HI1 & Hr1 & Hes & Hls).
  exists ws1. split; [exact Hrm|]. split; [|done].
  pose proof (find_spec ws1 log HI1) as Hsp. by rewrite Hr1 in Hsp.
Qed.

(** X5: a second remove at the same address changes nothing. *)
Theorem remove_twice_is_remove_once (ws : WriteSet) (log : WriteSetEntry.t) :
  Inv ws ->
  exists ws1, remove ws log = Some ws1 /\ remove ws1 log = Some ws1.
Proof.
  intros HI.
  destruct (lookup_slot_total ws (WriteSetEntry.addr log) HI) as [[h|h] Hr].
  - destruct (remove_hit ws log h HI Hr) as (ws1 & Hrm & HI1 & Hr1 & _).
    exists ws1. split; [exact Hrm|].
    pose proof (remove_spec ws1 log HI1) as Hsp. by rewrite Hr1 in Hsp.
  - pose proof (remove_spec ws log HI) as Hsp. rewrite Hr in Hsp.
    by exists ws.
Qed.

(** X6: when [b] sits in the slot both [a] and [b] hash to, remove at [b]
    makes find report not-found for [a], although the entry of [a] is still
    in use and a live slot still holds [a]: the probe of [a] stops at the
    slot that was invalidated. *)
Theorem remove_hides_colliding_address
    (ws : WriteSet) (a b va : Z) (s : index_t.t) :
  Inv ws -> a <> b ->
  hash (shift ws) a = hash (shift ws) b ->
  index ws !! Z.to_nat (hash (shift ws) b) = Some s ->
  live (version ws) s = true -> index_t.address s = b ->
  find ws (WriteSetEntry.mk a 0) = Some (true, WriteSetEntry.mk a va) ->
  exists ws1,
    remove ws (WriteSetEntry.mk b 0) = Some ws1 /\
    find ws1 (WriteSetEntry.mk a 0) = Some (false, WriteSetEntry.mk a 0) /\
    (exists k : nat, entries ws1 !! k = Some (WriteSetEntry.mk a va)) /\
    (exists (j : nat) s', index ws1 !! j = Some s' /\
                          live (version ws1) s' = true /\
                          index_t.address s' = a).
Proof.
  intros HI Hab Hhash Hs Hl Hb Hf.
  pose proof (Inv_ilength_bounds _ HI) as Hil.
  assert (Hrb : lookup_slot ws b = Some (Hit (hash (shift ws) b))).
  { unfold lookup_slot.
    destruct (Z.to_nat (ilength ws)) as [|fuel] eqn:E; [lia|].
    simpl. rewrite Hs. simpl. rewrite Hl.
    apply Z.eqb_eq in Hb. by rewrite Hb. }
  destruct (remove_hit ws (WriteSetEntry.mk b 0) _ HI Hrb)
    as (ws1 & Hrm & HI1 & Hr1 & Hes & Hls).
  simpl in Hr1.
  destruct (find_found _ _ _ HI Hf)
    as (ha & sa & e & Hra & Hsa & Hla & _ & He & Ha & Hval).
  simpl in Hra, Ha, Hval.
  assert (e = WriteSetEntry.mk a va) as ->.
  { destruct e as [ea ev]. simpl in *. congruence. }
  pose proof (remove_spec ws (WriteSetEntry.mk b 0) HI) as Hsp.
  simpl in Hsp. rewrite Hrb in Hsp.
  destruct Hsp as (s' & Hs' & _ & _ & Hrm').
  rewrite Hs in Hs'. injection Hs' as <-.
  rewrite Hrm in Hrm'. injection Hrm' as ->.
  exists (set_index ws
            (<[Z.to_nat (hash (shift ws) b) :=
                 index_t.mk (index_t.version s - 1) (index_t.address s)
                            (index_t.index s)]> (index ws))).
  split; [exact Hrm|]. split; [|split].
  - (* the probe of a starts in the slot that was invalidated *)
    pose proof (find_spec _ (WriteSetEntry.mk a 0) HI1) as Hsp.
    assert (Hfree : lookup_slot
              (set_index ws
                 (<[Z.to_nat (hash (shift ws) b) :=
                      index_t.mk (index_t.version s - 1) (index_t.address s)
                                 (index_t.index s)]> (index ws))) a
              = Some (Free (hash (shift ws) b))).
    { unfold lookup_slot. simpl. rewrite Hhash.
      unfold lookup_slot in Hr1. simpl in Hr1.
      destruct (Z.to_nat (ilength ws)) as [|fuel] eqn:E; [lia|].
      simpl in *.
      rewrite list_lookup_insert_eq in * by (by eapply lookup_lt_Some).
      simpl in *.
      destruct (live (version ws)
                  (index_t.mk (index_t.version s - 1) (index_t.address s)
                              (index_t.index s))); [|done].
      rewrite Hb, Z.eqb_refl in Hr1. simpl in Hr1. done. }
    simpl in Hsp. by rewrite Hfree in Hsp.
  - exists (Z.to_nat (index_t.index sa)). by rewrite Hes.
  - unfold lookup_slot in Hra.
    destruct (probe_hit _ _ _ _ _ _ _ Hra) as (sa' & Hsa' & Hla' & Haa').
    exists (Z.to_nat ha), sa'. simpl. split; [|done].
    rewrite list_lookup_insert_ne; [done|].
    intros Heq. rewrite Heq, Hsa' in Hs. injection Hs as ->. congruence.
Qed.

Lemma remove_leaves_free ws log :
  Inv ws ->
  exists ws1 h,
    remove ws log = Some ws1 /\ Inv ws1 /\
    lookup_slot ws1 (WriteSetEntry.addr log) = Some (Free h) /\
    entries ws1 = entries ws /\ lsize ws1 = lsize ws /\
    ilength ws1 = ilength ws.
Proof.
  intros HI.
  destruct (lookup_slot_total ws (WriteSetEntry.addr log) HI) as [[h|h] Hr].
  - pose proof (remove_spec ws log HI) as Hrm.
    rewrite Hr in Hrm. destruct Hrm as (s & Hs & Hl & _ & Hrm).
    eexists _, h. split; [exact Hrm|]. split; [by apply Inv_invalidate|].
    split; [|done].
    unfold lookup_slot. simpl. apply probe_invalidate; [|exact Hr].
    unfold live in *. simpl. apply Z.eqb_eq in Hl. apply Z.eqb_neq. lia.
  - pose proof (remove_spec ws log HI) as Hrm. rewrite Hr in Hrm.
    by exists ws, h.
Qed.

Lemma insert_free_appends ws a v h :
  Inv ws -> can_grow ws -> lookup_slot ws a = Some (Free h) ->
  exists ws2,
    insert ws (WriteSetEntry.mk a v) = Some (ws2, false) /\
    entries ws2 = entries ws ++ [WriteSetEntry.mk a v] /\
    lsize ws2 = lsize ws + 1 /\
    ((lsize ws + 1) * 3 < ilength ws ->
     forall x, find ws2 (WriteSetEntry.mk a x)
               = Some (true, WriteSetEntry.mk a v)).
Proof.
  intros HI Hg Hr.
  destruct (insert_new_spec ws (WriteSetEntry.mk a v) h HI Hg Hr)
    as (ws2 & Hins & HI2 & Hes2 & Hls2 & _ & Hcase).
  exists ws2. split; [exact Hins|]. split; [exact Hes2|].
  split; [exact Hls2|]. intros Hload x0.
  destruct ((lsize ws + 1) * 3 >=? ilength ws) eqn:E;
    [rewrite Z.geb_leb in E; apply Z.leb_le in E; lia|].
  destruct Hcase as (Hi2 & Hsh2 & Hil2 & Hv2). simpl in Hi2.
  pose proof (Inv_ilength_bounds _ HI) as Hil.
  pose proof (Inv_hash_range ws a HI) as Hh0.
  pose proof (length_entries _ HI) as Hlen.
  assert (Hr2 : lookup_slot ws2 a = Some (Hit h)).
  { unfold lookup_slot. rewrite Hi2, Hsh2, Hil2, Hv2.
    apply probe_claim; [lia|lia|exact Hr]. }
  pose proof (find_spec ws2 (WriteSetEntry.mk a x0) HI2) as Hsp.
  simpl in Hsp. rewrite Hr2 in Hsp.
  destruct Hsp as (s2 & e2 & Hs2 & He2 & _ & Hfind).
  unfold lookup_slot in Hr.
  destruct (probe_free _ _ _ _ _ _ _ Hr) as (sf & Hsf & _).
  rewrite Hi2 in Hs2.
  rewrite list_lookup_insert_eq in Hs2 by (by eapply lookup_lt_Some).
  injection Hs2 as <-. simpl in He2.
  rewrite Hes2, <- Hlen in He2.
  rewrite list_lookup_middle in He2 by done.
  injection He2 as <-. exact Hfind.
Qed.

(** X15: when a live slot holds the address [a], remove and then insert at
    [a] appends a second entry for [a]: insert returns false, size is one
    more than before the remove, writeback stores the value of the old
    entry and later the new value and leaves the new value in memory, and
    find reports the new value when the insert does not rebuild the
    index. *)
Theorem remove_then_insert_appends_entry
    (ws : WriteSet) (a v : Z) (j : nat) (s : index_t.t) :
  Inv ws -> can_grow ws -> 0 <= v < 2 ^ 64 ->
  index ws !! j = Some s -> live (version ws) s = true ->
  index_t.address s = a ->
  exists ws1 ws2 (k : nat) v_old,
    remove ws (WriteSetEntry.mk a v) = Some ws1 /\
    insert ws1 (WriteSetEntry.mk a v) = Some (ws2, false) /\
    size ws2 = size ws + 1 /\
    entries ws2 = entries ws ++ [WriteSetEntry.mk a v] /\
    (k < Z.to_nat (lsize ws))%nat /\
    entries ws !! k = Some (WriteSetEntry.mk a v_old) /\
    writeback_stores (entries ws2) !! k = Some (a, v_old) /\
    writeback_stores (entries ws2) !! Z.to_nat (lsize ws) = Some (a, v) /\
    length (writeback_stores (entries ws2)) = S (Z.to_nat (lsize ws)) /\
    (forall m, load (writeback ws2 m) a = v) /\
    ((lsize ws + 1) * 3 < ilength ws ->
     forall x, find ws2 (WriteSetEntry.mk a x)
               = Some (true, WriteSetEntry.mk a v)).
Proof.
  intros HI Hg Hv Hs Hl Ha.
  destruct (inv_sound _ HI _ _ Hs Hl) as (_ & e & He & Hae).
  destruct (entries_lookup _ _ _ He) as [_ Hk].
  assert (Heq : e = WriteSetEntry.mk a (WriteSetEntry.val e)).
  { destruct e as [ea ev]. simpl in *. congruence. }
  rewrite Heq in He.
  destruct (remove_leaves_free ws (WriteSetEntry.mk a v) HI)
    as (ws1 & h & Hrm & HI1 & Hr1 & Hes1 & Hls1 & Hil1).
  simpl in Hr1.
  assert (Hg1 : can_grow ws1) by (unfold can_grow; by rewrite Hls1).
  destruct (insert_free_appends ws1 a v h HI1 Hg1 Hr1)
    as (ws2 & Hins & Hes2 & Hls2 & Hfind).
  rewrite Hes1 in Hes2. rewrite Hls1 in Hls2, Hfind. rewrite Hil1 in Hfind.
  pose proof (length_entries _ HI) as Hlen.
  exists ws1, ws2, (Z.to_nat (index_t.index s)), (WriteSetEntry.val e).
  split; [exact Hrm|]. split; [exact Hins|]. split; [exact Hls2|].
  split; [exact Hes2|]. split; [exact Hk|]. split; [exact He|].
  rewrite Hes2, writeback_stores_app.
  split; [|split; [|split; [|split]]].
  - apply lookup_app_l_Some.
    by apply (writeback_stores_lookup _ _
                (WriteSetEntry.mk a (WriteSetEntry.val e))).
  - rewrite <- Hlen, <- (length_writeback_stores (entries ws)).
    by apply list_lookup_middle.
  - rewrite length_app, length_writeback_stores, Hlen. simpl. lia.
  - intros m. unfold writeback. rewrite Hes2.
    by apply (writeback_loop_last (entries ws) (WriteSetEntry.mk a v)).
  - exact Hfind.
Qed.

(** * writeback: the last entry of an address wins *)

Lemma writeback_loop_last_value es : forall m a,
  Forall (fun e => WriteSetEntry.addr e = a \/ apart (WriteSetEntry.addr e) a)
         es ->
  Forall (fun e => 0 <= WriteSetEntry.val e < 2 ^ 64) es ->
  load (writeback_loop es m) a =
  match last_value es a with Some v => v | None => load m a end.
Proof.
  induction es as [|e es IH]; intros m a Hsep Hw; simpl; [done|].
  apply Forall_cons in Hsep as [He Hsep]. apply Forall_cons in Hw as [Hv Hw].
  rewrite IH by done. destruct (last_value es a); [done|].
  unfold WriteSetEntry.writeback.
  destruct (WriteSetEntry.addr e =? a) eqn:E.
  - apply Z.eqb_eq in E. rewrite E. by apply load_store_same.
  - apply Z.eqb_neq in E. destruct He as [He|He]; [done|].
    by apply load_store_apart.
Qed.

Lemma last_value_Some es a v :
  last_value es a = Some v -> WriteSetEntry.mk a v ∈ es.
Proof.
  induction es as [|e es IH]; simpl; [done|].
  destruct (last_value es a) as [w|].
  - intros [= ->]. right. by apply IH.
  - destruct (WriteSetEntry.addr e =? a) eqn:E; [|done].
    apply Z.eqb_eq in E. intros [= <-].
    destruct e as [ea ev]. simpl in *. subst. by left.
Qed.

Lemma last_value_None es a :
  last_value es a = None -> a ∉ WriteSetEntry.addr <$> es.
Proof.
  induction es as [|e es IH]; simpl; [intros _; apply not_elem_of_nil|].
  destruct (last_value es a) as [w|]; [done|].
  destruct (WriteSetEntry.addr e =? a) eqn:E; [done|].
  apply Z.eqb_neq in E. intros _. apply not_elem_of_cons. split; [done|].
  by apply IH.
Qed.

(** X7: after writeback the word at an address holds the value of the last
    entry in use with this address, in list order, and keeps its old value
    when no entry in use has the address, provided every entry in use has
    this address or one at least 8 away and holds a 64-bit value. *)
Theorem writeback_last_entry_wins (ws : WriteSet) (m : memory) (a : Z) :
  Forall (fun e => WriteSetEntry.addr e = a \/ apart (WriteSetEntry.addr e) a)
         (entries ws) ->
  Forall (fun e => 0 <= WriteSetEntry.val e < 2 ^ 64) (entries ws) ->
  load (writeback ws m) a =
  match last_value (entries ws) a with Some v => v | None => load m a end /\
  (forall v, last_value (entries ws) a = Some v ->
             WriteSetEntry.mk a v ∈ entries ws) /\
  (last_value (entries ws) a = None ->
   a ∉ WriteSetEntry.addr <$> entries ws).
Proof.
  intros Hsep Hw. split; [by apply writeback_loop_last_value|]. split.
  - intros v. apply last_value_Some.
  - apply last_value_None.
Qed.

(** X8: when two entries in use have the same address and different
    values, validate right after writeback returns false. *)
Theorem validate_fails_on_conflicting_entries
    (ws : WriteSet) (m : memory) (i j : nat) (e1 e2 : WriteSetEntry.t) :
  entries ws !! i = Some e1 -> entries ws !! j = Some e2 ->
  WriteSetEntry.addr e1 = WriteSetEntry.addr e2 ->
  WriteSetEntry.val e1 <> WriteSetEntry.val e2 ->
  validate ws (writeback ws m) = false.
Proof.
  intros H1 H2 Ha Hv.
  destruct (validate ws (writeback ws m)) eqn:E; [|done].
  exfalso. unfold validate in E.
  pose proof (validate_loop_sound _ _ E) as Hs.
  pose proof (Hs e1 (list_elem_of_lookup_2 _ _ _ H1)) as Hm1.
  pose proof (Hs e2 (list_elem_of_lookup_2 _ _ _ H2)) as Hm2.
  rewrite Ha in Hm1. congruence.
Qed.

(** * The hash when the index doubles *)

(** X9: with one bit less shifted out, as for an index twice as large,
    the hash of a key is twice its old hash or one more: halving it gives
    the old hash. *)
Theorem hash_refines_on_doubling (sh key : Z) :
  1 <= sh <= 32 ->
  hash (sh - 1) key / 2 = hash sh key /\
  (hash (sh - 1) key = 2 * hash sh key \/
   hash (sh - 1) key = 2 * hash sh key + 1).
Proof.
  intros Hsh.
  assert (H : hash (sh - 1) key / 2 = hash sh key).
  { rewrite !hash_low32 by lia.
    rewrite Z.div_div by (try apply Z.pow_pos_nonneg; lia).
    f_equal. replace sh with (sh - 1 + 1) at 2 by lia.
    by rewrite Z.pow_add_r by lia. }
  split; [exact H|].
  pose proof (Z.div_mod (hash (sh - 1) key) 2 ltac:(lia)) as Hdm.
  pose proof (Z.mod_pos_bound (hash (sh - 1) key) 2 ltac:(lia)) as Hb.
  rewrite H in Hdm. lia.
Qed.

(** * Sequences of operations: every call returns *)

Lemma step_addresses ws o ws' b :
  Inv ws -> can_grow ws -> step ws o = Some (ws', b) ->
  forall a, a ∈ addresses ws' -> a ∈ addresses ws \/ a ∈ inserted [o].
Proof.
  intros HI Hg Hst a. destruct o as [a0 v|a0|a0]; simpl in Hst.
  - destruct (lookup_slot_total ws a0 HI) as [[h|h] Hr].
    + destruct (insert_hit ws (WriteSetEntry.mk a0 v) h HI Hr)
        as (s & e & _ & _ & He & _ & Hins).
      rewrite Hins in Hst. simpl in Hst. injection Hst as <- <-.
      unfold addresses. rewrite entries_update_addr by done. by left.
    + destruct (insert_new_spec ws (WriteSetEntry.mk a0 v) h HI Hg Hr)
        as (ws1 & Hins & _ & Hes & _).
      rewrite Hins in Hst. simpl in Hst. injection Hst as <- <-.
      unfold addresses. rewrite Hes, fmap_app, elem_of_app. simpl. tauto.
  - destruct (find ws (WriteSetEntry.mk a0 0)); [|done].
    simpl in Hst. injection Hst as <- <-. by left.
  - destruct (remove_keeps_entries ws (WriteSetEntry.mk a0 0) HI)
      as (ws1 & Hrm & Hes & _).
    rewrite Hrm in Hst. simpl in Hst. injection Hst as <- <-.
    unfold addresses. rewrite Hes. by left.
Qed.

Lemma run_addresses ops : forall ws,
  Inv ws -> 3 * (lsize ws + Z.of_nat (length ops)) < 2 ^ 32 ->
  exists ws' n,
    run ws ops = Some (ws', n) /\ Inv ws' /\
    lsize ws' = lsize ws + n /\ 0 <= n <= Z.of_nat (length ops) /\
    forall a, a ∈ addresses ws' -> a ∈ addresses ws \/ a ∈ inserted ops.
Proof.
  induction ops as [|o ops IH]; intros ws HI Hroom.
  - exists ws, 0. simpl. split; [done|]. split; [done|].
    split; [lia|]. split; [lia|]. intros a. by left.
  - simpl length in Hroom.
    assert (Hg : can_grow ws) by (unfold can_grow; lia).
    destruct (step_spec ws o HI Hg) as (ws1 & b & Hst & HI1 & Hls1 & _).
    destruct (IH ws1 HI1) as (ws2 & n & Hrun & HI2 & Hls2 & Hn & Hin2).
    { rewrite Hls1. destruct b; lia. }
    exists ws2, ((if b then 1 else 0) + n).
    split; [simpl; by rewrite Hst, Hrun|]. split; [done|].
    split; [lia|]. split; [simpl length; destruct b; lia|].
    intros a Ha. rewrite (inserted_cons o ops), elem_of_app.
    destruct (Hin2 a Ha) as [H1|H1]; [|tauto].
    destruct (step_addresses ws o ws1 b HI Hg Hst a H1); tauto.
Qed.

(** X10: from a well-formed set every call of a sequence of insert, find
    and remove returns, as long as the index can grow; the result is
    well-formed, size has grown by the number of appending inserts and stays
    below the capacity of the list and a third of the index. *)
Theorem operations_always_return (s0 : WriteSet) (ops : list op) :
  Inv s0 -> 3 * (lsize s0 + Z.of_nat (length ops)) < 2 ^ 32 ->
  exists s n,
    run s0 ops = Some (s, n) /\ Inv s /\
    size s = size s0 + n /\ 0 <= n <= Z.of_nat (length ops) /\
    size s < capacity s /\ size s * 3 < ilength s.
Proof.
  intros HI Hroom.
  destruct (run_addresses ops s0 HI Hroom)
    as (s & n & Hrun & HIs & Hls & Hn & _).
  exists s, n. split; [done|]. split; [done|]. split; [done|].
  split; [done|]. split; [apply (inv_lsize _ HIs)|apply (inv_load _ HIs)].
Qed.

(** X11: an address that no insert of the sequence since the reset names
    is not found, whatever was removed; writeback leaves its word alone
    when every inserted address is at least 8 away from it. *)
Theorem never_inserted_not_found (s0 : WriteSet) (ops : list op) (a : Z) :
  Inv s0 -> lsize s0 = 0 -> 3 * Z.of_nat (length ops) < 2 ^ 32 ->
  a ∉ inserted ops ->
  exists s n,
    run s0 ops = Some (s, n) /\
    (forall x, find s (WriteSetEntry.mk a x)
               = Some (false, WriteSetEntry.mk a x)) /\
    (Forall (fun a' => apart a' a) (inserted ops) ->
     forall m, load (writeback s m) a = load m a).
Proof.
  intros HI H0 Hroom Hnot.
  destruct (run_addresses ops s0 HI) as (s & n & Hrun & HIs & _ & _ & Hin);
    [lia|].
  assert (Hna : a ∉ addresses s).
  { intros Ha. destruct (Hin a Ha) as [H|H]; [|done].
    unfold addresses, entries in H. rewrite H0 in H. simpl in H.
    by apply elem_of_nil in H. }
  exists s, n. split; [done|]. split.
  - intros x. pose proof (find_spec s (WriteSetEntry.mk a x) HIs) as Hsp.
    simpl in Hsp.
    destruct (lookup_slot s a) as [[h|h]|] eqn:Hr; [|done|done].
    exfalso. apply Hna.
    destruct (Inv_hit s a h HIs Hr) as (sl & e & _ & _ & _ & _ & He & _ & Ha).
    apply list_elem_of_fmap. exists e. split; [done|].
    by eapply list_elem_of_lookup_2.
  - intros Hfar m. unfold writeback. apply writeback_loop_far.
    apply Forall_forall. intros e He.
    rewrite Forall_forall in Hfar. apply Hfar.
    assert (Hae : WriteSetEntry.addr e ∈ addresses s)
      by (by apply list_elem_of_fmap_2).
    destruct (Hin _ Hae) as [H|H]; [|exact H].
    unfold addresses, entries in H. rewrite H0 in H. simpl in H.
    by apply elem_of_nil in H.
Qed.

(** * Sets without a removal behave as a map from addresses to values *)

Lemma binds_address ws a :
  a ∈ addresses ws <-> exists v, binds ws a v.
Proof.
  unfold addresses, binds. rewrite list_elem_of_fmap. split.
  - intros (e & -> & Hin). apply list_elem_of_lookup in Hin as [k Hk].
    exists (WriteSetEntry.val e), k. by destruct e.
  - intros (v & k & Hk). exists (WriteSetEntry.mk a v). split; [done|].
    by eapply list_elem_of_lookup_2.
Qed.

Lemma binds_functional ws a v w :
  reach ws -> binds ws a v -> binds ws a w -> v = w.
Proof.
  intros HR [k Hk] [k' Hk'].
  assert (k = k') as -> by (by eapply reach_inj).
  congruence.
Qed.

Lemma find_binds ws a v x :
  Inv ws -> reach ws -> binds ws a v ->
  find ws (WriteSetEntry.mk a x) = Some (true, WriteSetEntry.mk a v).
Proof.
  intros HI HR [k Hk].
  destruct (HR _ _ Hk) as (h & s & Hl & Hs & Hi). simpl in Hl.
  pose proof (find_spec ws (WriteSetEntry.mk a x) HI) as Hsp.
  simpl in Hsp. rewrite Hl in Hsp.
  destruct Hsp as (s' & e' & Hs' & He' & _ & Hf).
  rewrite Hs in Hs'. injection Hs' as <-.
  rewrite Hi, Nat2Z.id, Hk in He'. injection He' as <-. exact Hf.
Qed.

Lemma find_unbound ws a x :
  Inv ws -> a ∉ addresses ws ->
  find ws (WriteSetEntry.mk a x) = Some (false, WriteSetEntry.mk a x).
Proof.
  intros HI Hna.
  pose proof (find_spec ws (WriteSetEntry.mk a x) HI) as Hsp. simpl in Hsp.
  destruct (lookup_slot ws a) as [[h|h]|] eqn:Hr; [|done|done].
  exfalso. apply Hna.
  destruct (Inv_hit ws a h HI Hr) as (sl & e & _ & _ & _ & _ & He & _ & Ha).
  apply list_elem_of_fmap. exists e. split; [done|].
  by eapply list_elem_of_lookup_2.
Qed.

Lemma insert_binds ws a v ws' b :
  Inv ws -> reach ws -> can_grow ws ->
  insert ws (WriteSetEntry.mk a v) = Some (ws', b) ->
  forall a' v',
    binds ws' a' v' <-> (a' = a /\ v' = v) \/ (a' <> a /\ binds ws a' v').
Proof.
  intros HI HR Hg Hins a' v'.
  destruct (lookup_slot_total ws a HI) as [[h|h] Hr].
  - destruct (insert_hit ws (WriteSetEntry.mk a v) h HI Hr)
      as (s & e & _ & Hi & He & Ha & Hins').
    rewrite Hins' in Hins. injection Hins as <- <-. simpl in Ha.
    unfold binds. rewrite entries_update by lia. split.
    + intros [k Hk].
      apply list_lookup_insert_Some in Hk as [(_ & Hx & _) | (Hne & Hk)].
      * left. unfold WriteSetEntry.update in Hx. simpl in Hx.
        injection Hx as <- <-. done.
      * right. split; [|by exists k].
        intros ->. apply Hne. eapply reach_inj; eauto.
    + intros [[-> ->] | [Hne [k Hk]]].
      * exists (Z.to_nat (index_t.index s)).
        rewrite list_lookup_insert_eq by (by eapply lookup_lt_Some).
        unfold WriteSetEntry.update. simpl. by rewrite Ha.
      * exists k. rewrite list_lookup_insert_ne; [done|].
        intros <-. rewrite He in Hk. injection Hk as ->. done.
  - destruct (insert_new_spec ws (WriteSetEntry.mk a v) h HI Hg Hr)
      as (ws1 & Hins' & _ & Hes & _).
    rewrite Hins' in Hins. injection Hins as <- <-.
    assert (Hfresh : forall w, ~ binds ws a w).
    { intros w [k Hk]. destruct (HR _ _ Hk) as (h0 & _ & Hl0 & _).
      simpl in Hl0. congruence. }
    unfold binds. rewrite Hes. split.
    + intros [k Hk]. apply lookup_app_Some in Hk as [Hk | (_ & Hk)].
      * right. split; [|by exists k]. intros ->. apply (Hfresh v'). by exists k.
      * apply list_lookup_singleton_Some in Hk as [_ Hx].
        injection Hx as <- <-. by left.
    + intros [[-> ->] | [_ [k Hk]]].
      * exists (length (entries ws)). by apply list_lookup_middle.
      * exists k. by apply lookup_app_l_Some.
Qed.

Lemma step_binds ws o ws' b :
  Inv ws -> reach ws -> can_grow ws -> is_remove o = false ->
  step ws o = Some (ws', b) ->
  forall a v,
    binds ws' a v <->
    match o with
    | Insert a' v' => (a = a' /\ v = v') \/ (a <> a' /\ binds ws a v)
    | _ => binds ws a v
    end.
Proof.
  intros HI HR Hg Ho Hst a v. destruct o as [a0 v0|a0|a0]; simpl in *.
  - destruct (insert ws (WriteSetEntry.mk a0 v0)) as [[ws1 b1]|] eqn:Hins;
      [|done].
    simpl in Hst. injection Hst as <- <-.
    by apply (insert_binds ws a0 v0 ws1 b1).
  - destruct (find ws (WriteSetEntry.mk a0 0)); [|done].
    simpl in Hst. by injection Hst as <- <-.
  - done.
Qed.

Lemma run_binds ops : forall ws,
  Inv ws -> reach ws -> 3 * (lsize ws + Z.of_nat (length ops)) < 2 ^ 32 ->
  forallb (fun o => negb (is_remove o)) ops = true ->
  exists ws' n,
    run ws ops = Some (ws', n) /\ Inv ws' /\ reach ws' /\
    forall a v,
      binds ws' a v <->
      match last_write ops a with
      | Some w => v = w
      | None => binds ws a v
      end.
Proof.
  induction ops as [|o ops IH]; intros ws HI HR Hroom Hnr.
  - exists ws, 0. split; [done|]. split; [done|]. split; [done|]. done.
  - simpl length in Hroom. simpl in Hnr.
    apply andb_true_iff in Hnr as [Ho Hops]. apply negb_true_iff in Ho.
    assert (Hg : can_grow ws) by (unfold can_grow; lia).
    destruct (step_spec ws o HI Hg) as (ws1 & b & Hst & HI1 & Hls1 & Hre1).
    destruct (Hre1 Ho HR) as [HR1 _].
    destruct (IH ws1 HI1 HR1) as (ws2 & n & Hrun & HI2 & HR2 & Hb2);
      [rewrite Hls1; destruct b; lia|done|].
    exists ws2, ((if b then 1 else 0) + n).
    split; [simpl; by rewrite Hst, Hrun|]. split; [done|]. split; [done|].
    intros a v. rewrite Hb2. simpl.
    destruct (last_write ops a) as [w|]; [done|].
    rewrite (step_binds ws o ws1 b HI HR Hg Ho Hst a v).
    destruct o as [a0 v0|a0|a0]; [|done|done].
    destruct (a0 =? a) eqn:E.
    + apply Z.eqb_eq in E. subst a0. split; [|intros ->; by left].
      intros [[_ ->] | [Hne _]]; done.
    + apply Z.eqb_neq in E. split.
      * intros [[-> _] | [_ Hb]]; done.
      * intros Hb. right. split; [congruence|done].
Qed.

(** X12: after a sequence of insert and find from an empty set, find
    reports for every address the value of the last insert at it, and
    not-found when there was none. *)
Theorem find_reports_last_write (s0 : WriteSet) (ops : list op) :
  Inv s0 -> lsize s0 = 0 -> 3 * Z.of_nat (length ops) < 2 ^ 32 ->
  forallb (fun o => negb (is_remove o)) ops = true ->
  exists s n,
    run s0 ops = Some (s, n) /\
    forall a x,
      find s (WriteSetEntry.mk a x) =
      match last_write ops a with
      | Some v => Some (true, WriteSetEntry.mk a v)
      | None => Some (false, WriteSetEntry.mk a x)
      end.
Proof.
  intros HI H0 Hroom Hnr.
  destruct (run_binds ops s0 HI (reach_empty _ H0))
    as (s & n & Hrun & HIs & HRs & Hb); [lia|done|].
  exists s, n. split; [done|]. intros a x.
  specialize (Hb a). destruct (last_write ops a) as [w|].
  - apply find_binds; try done. by apply Hb.
  - apply find_unbound; [done|]. rewrite binds_address.
    intros [v Hv]. apply Hb in Hv as [k Hk].
    unfold entries in Hk. rewrite H0 in Hk. done.
Qed.

Lemma last_write_In ops a v : last_write ops a = Some v -> Insert a v ∈ ops.
Proof.
  induction ops as [|o ops IH]; simpl; [done|].
  destruct (last_write ops a) as [w|].
  - intros [= ->]. right. by apply IH.
  - destruct o as [a' v'|a'|a']; [|done|done].
    destruct (a' =? a) eqn:E; [|done].
    apply Z.eqb_eq in E. intros [= ->]. subst. by left.
Qed.

(** X13: after a sequence of insert and find from an empty set, with
    8-byte aligned addresses and 64-bit values, writeback leaves at every
    aligned address the value of the last insert at it, or its old word
    when there was none, and validate then returns true. *)
Theorem commit_publishes_last_writes
    (s0 : WriteSet) (ops : list op) (m : memory) :
  Inv s0 -> lsize s0 = 0 -> 3 * Z.of_nat (length ops) < 2 ^ 32 ->
  forallb (fun o => negb (is_remove o)) ops = true ->
  Forall word_op ops ->
  exists s n,
    run s0 ops = Some (s, n) /\
    (forall a, a mod 8 = 0 ->
       load (writeback s m) a =
       match last_write ops a with Some v => v | None => load m a end) /\
    validate s (writeback s m) = true.
Proof.
  intros HI H0 Hroom Hnr Hwo.
  destruct (run_binds ops s0 HI (reach_empty _ H0))
    as (s & n & Hrun & HIs & HRs & Hb); [lia|done|].
  pose proof (reach_NoDup _ HRs) as Hnd.
  assert (Hempty : forall a v, ~ binds s0 a v).
  { intros a v [k Hk]. unfold entries in Hk. rewrite H0 in Hk. done. }
  assert (Hent : forall e, e ∈ entries s ->
            WriteSetEntry.addr e mod 8 = 0 /\
            0 <= WriteSetEntry.val e < 2 ^ 64).
  { intros [a v] He. apply list_elem_of_lookup in He as [k Hk].
    assert (Hbs : binds s a v) by (by exists k).
    apply Hb in Hbs. destruct (last_write ops a) as [w|] eqn:Hlw;
      [|by apply Hempty in Hbs].
    subst w. apply last_write_In in Hlw.
    rewrite Forall_forall in Hwo. apply (Hwo _ Hlw). }
  assert (Hal : Forall (fun e => WriteSetEntry.addr e mod 8 = 0) (entries s)).
  { apply Forall_forall. intros e He. by apply Hent. }
  assert (Hw : Forall (fun e => 0 <= WriteSetEntry.val e < 2 ^ 64) (entries s)).
  { apply Forall_forall. intros e He. by apply Hent. }
  assert (Hpa : pairwise_apart (WriteSetEntry.addr <$> entries s)).
  { apply aligned_pairwise_apart; [done|]. by apply Forall_fmap. }
  exists s, n. split; [done|]. split.
  - intros a Ha. specialize (Hb a). destruct (last_write ops a) as [w|].
    + destruct (proj2 (Hb w) eq_refl) as [k Hk].
      unfold writeback.
      apply (writeback_loop_apart _ m (WriteSetEntry.mk a w) Hpa Hw).
      by eapply list_elem_of_lookup_2.
    + unfold writeback. apply writeback_loop_far.
      apply Forall_forall. intros e He. apply aligned_apart; [by apply Hent|done|].
      intros Heq. apply (Hempty a (WriteSetEntry.val e)). apply Hb.
      apply list_elem_of_lookup in He as [k Hk]. exists k.
      rewrite Hk. destruct e; simpl in *; by subst.
  - unfold validate. apply validate_loop_true. intros e He.
    by apply writeback_loop_apart.
Qed.

(** X14: in a set without a removal, an insert at [a] does not change
    what find reports for any other address, and find then reports the
    inserted value for [a]. *)
Theorem insert_keeps_other_bindings
    (ws ws' : WriteSet) (a v a' x : Z) (b : bool) :
  Inv ws -> reach ws -> can_grow ws ->
  insert ws (WriteSetEntry.mk a v) = Some (ws', b) -> a' <> a ->
  find ws' (WriteSetEntry.mk a' x) = find ws (WriteSetEntry.mk a' x) /\
  find ws' (WriteSetEntry.mk a x) = Some (true, WriteSetEntry.mk a v).
Proof.
  intros HI HR Hg Hins Hne.
  assert (HI' : Inv ws').
  { destruct (Inv_insert ws (WriteSetEntry.mk a v) HI Hg)
      as (ws1 & b1 & Hins1 & HI1). congruence. }
  pose proof (reach_insert _ _ _ _ HI HR Hg Hins) as HR'.
  pose proof (insert_binds ws a v ws' b HI HR Hg Hins) as Hb.
  split.
  - destruct (decide (a' ∈ addresses ws)) as [Hin | Hnin].
    + apply binds_address in Hin as [w Hw].
      rewrite (find_binds ws a' w x HI HR Hw).
      apply find_binds; try done. apply Hb. by right.
    + rewrite (find_unbound ws a' x HI Hnin).
      apply find_unbound; [done|]. rewrite binds_address.
      intros [w Hw]. apply Hb in Hw as [[? _] | [_ Hw]]; [done|].
      apply Hnin. apply binds_address. by exists w.
  - apply find_binds; try done. apply Hb. by left.
Qed.

(** * The further theorems on the scenario *)

Lemma find_reports_buffered_entry_witness :
  let ws := exec (new_WriteSet 4) [Insert 8 1; Insert 16 2] in
  let log := WriteSetEntry.mk 8 0 in
  let r := WriteSetEntry.mk 8 1 in
  WriteSetEntry.addr r = WriteSetEntry.addr log /\
  exists k : nat, (k < Z.to_nat (size ws))%nat /\ entries ws !! k = Some r.
Proof.
  apply (find_reports_buffered_entry
           (exec (new_WriteSet 4) [Insert 8 1; Insert 16 2])
           (WriteSetEntry.mk 8 0) (WriteSetEntry.mk 8 1)).
  - apply Inv_scenario. vm_compute. reflexivity.
  - vm_compute. reflexivity.
Defined.

Lemma insert_returns_what_find_reports_witness :
  let ws := exec (new_WriteSet 4) [Insert 8 1] in
  let log := WriteSetEntry.mk 8 5 in
  exists ws' b r,
    insert ws log = Some (ws', b) /\ find ws log = Some (b, r) /\
    (b = false -> r = log /\ entries ws' = entries ws ++ [log]) /\
    (b = true -> lsize ws' = lsize ws).
Proof.
  apply (insert_returns_what_find_reports
           (exec (new_WriteSet 4) [Insert 8 1]) (WriteSetEntry.mk 8 5)).
  - apply Inv_scenario. vm_compute. reflexivity.
  - vm_compute. reflexivity.
Defined.

Lemma coalescing_insert_changes_one_value_witness :
  let ws := exec (new_WriteSet 4) [Insert 8 1; Insert 16 2] in
  let ws' := exec ws [Insert 16 7] in
  let log := WriteSetEntry.mk 16 7 in
  index ws' = index ws /\ lsize ws' = lsize ws /\ version ws' = version ws /\
  capacity ws' = capacity ws /\ shift ws' = shift ws /\
  ilength ws' = ilength ws /\
  exists (k : nat) e,
    entries ws !! k = Some e /\
    WriteSetEntry.addr e = WriteSetEntry.addr log /\
    list_ ws' =
      <[k := WriteSetEntry.mk (WriteSetEntry.addr e) (WriteSetEntry.val log)]>
        (list_ ws).
Proof.
  apply (coalescing_insert_changes_one_value
           (exec (new_WriteSet 4) [Insert 8 1; Insert 16 2])
           (exec (exec (new_WriteSet 4) [Insert 8 1; Insert 16 2])
                 [Insert 16 7])
           (WriteSetEntry.mk 16 7)).
  - apply Inv_scenario. vm_compute. reflexivity.
  - vm_compute. reflexivity.
Defined.

Lemma remove_then_find_not_found_witness :
  let ws := exec (new_WriteSet 4) [Insert 8 1; Insert 16 2] in
  let log := WriteSetEntry.mk 16 0 in
  exists ws1,
    remove ws log = Some ws1 /\
    find ws1 log = Some (false, log) /\
    size ws1 = size ws /\ entries ws1 = entries ws.
Proof.
  apply (remove_then_find_not_found
           (exec (new_WriteSet 4) [Insert 8 1; Insert 16 2])
           (WriteSetEntry.mk 16 0) (WriteSetEntry.mk 16 2)).
  - apply Inv_scenario. vm_compute. reflexivity.
  - vm_compute. reflexivity.
Defined.

Lemma remove_twice_is_remove_once_witness :
  let ws := exec (new_WriteSet 4) [Insert 8 1; Insert 16 2] in
  let log := WriteSetEntry.mk 16 0 in
  exists ws1, remove ws log = Some ws1 /\ remove ws1 log = Some ws1.
Proof.
  apply (remove_twice_is_remove_once
           (exec (new_WriteSet 4) [Insert 8 1; Insert 16 2])
           (WriteSetEntry.mk 16 0)).
  apply Inv_scenario. vm_compute. reflexivity.
Defined.

Lemma remove_hides_colliding_address_witness :
  let ws := exec (new_WriteSet 4) [Insert 72 1; Insert 80 2] in
  exists ws1,
    remove ws (WriteSetEntry.mk 72 0) = Some ws1 /\
    find ws1 (WriteSetEntry.mk 80 0) = Some (false, WriteSetEntry.mk 80 0) /\
    (exists k : nat, entries ws1 !! k = Some (WriteSetEntry.mk 80 2)) /\
    (exists (j : nat) s', index ws1 !! j = Some s' /\
                          live (version ws1) s' = true /\
                          index_t.address s' = 80).
Proof.
  apply (remove_hides_colliding_address
           (exec (new_WriteSet 4) [Insert 72 1; Insert 80 2])
           80 72 2 (index_t.mk 1 72 0)).
  - apply Inv_scenario. vm_compute. reflexivity.
  - discriminate.
  - vm_compute. reflexivity.
  - vm_compute. reflexivity.
  - vm_compute. reflexivity.
  - reflexivity.
  - vm_compute. reflexivity.
Defined.

Lemma validate_fails_on_conflicting_entries_witness :
  let ws := exec (new_WriteSet 4) [Insert 8 1; Remove 8; Insert 8 2] in
  validate ws (writeback ws (fun _ => 0)) = false.
Proof.
  apply (validate_fails_on_conflicting_entries
           (exec (new_WriteSet 4) [Insert 8 1; Remove 8; Insert 8 2])
           (fun _ => 0) 0 1 (WriteSetEntry.mk 8 1) (WriteSetEntry.mk 8 2)).
  - vm_compute. reflexivity.
  - vm_compute. reflexivity.
  - reflexivity.
  - discriminate.
Defined.

Lemma hash_refines_on_doubling_witness :
  hash (28 - 1) 8 / 2 = hash 28 8 /\
  (hash (28 - 1) 8 = 2 * hash 28 8 \/ hash (28 - 1) 8 = 2 * hash 28 8 + 1).
Proof. apply (hash_refines_on_doubling 28 8). lia. Defined.

Lemma operations_always_return_witness :
  let ops := [Insert 8 1; Remove 8; Insert 8 2; Find 16; Insert 16 3;
              Remove 24] in
  exists s n,
    run (new_WriteSet 4) ops = Some (s, n) /\ Inv s /\
    size s = size (new_WriteSet 4) + n /\ 0 <= n <= Z.of_nat (length ops) /\
    size s < capacity s /\ size s * 3 < ilength s.
Proof.
  apply (operations_always_return (new_WriteSet 4)
           [Insert 8 1; Remove 8; Insert 8 2; Find 16; Insert 16 3;
            Remove 24]).
  - apply Inv_new; lia.
  - vm_compute. reflexivity.
Defined.

Lemma never_inserted_not_found_witness :
  let ops := [Insert 8 1; Remove 8; Insert 16 2] in
  exists s n,
    run (new_WriteSet 4) ops = Some (s, n) /\
    (forall x, find s (WriteSetEntry.mk 24 x)
               = Some (false, WriteSetEntry.mk 24 x)) /\
    (Forall (fun a' => apart a' 24) (inserted ops) ->
     forall m, load (writeback s m) 24 = load m 24).
Proof.
  apply (never_inserted_not_found (new_WriteSet 4)
           [Insert 8 1; Remove 8; Insert 16 2] 24).
  - apply Inv_new; lia.
  - vm_compute. reflexivity.
  - vm_compute. reflexivity.
  - simpl. intros H.
    apply elem_of_cons in H as [H|H]; [discriminate|].
    apply elem_of_cons in H as [H|H]; [discriminate|].
    by apply elem_of_nil in H.
Defined.

Lemma find_reports_last_write_witness :
  let s0 := reset (exec (new_WriteSet 4) [Insert 8 1; Insert 24 9]) in
  let ops := [Insert 8 3; Insert 16 2; Find 8; Insert 8 5] in
  exists s n,
    run s0 ops = Some (s, n) /\
    forall a x,
      find s (WriteSetEntry.mk a x) =
      match last_write ops a with
      | Some v => Some (true, WriteSetEntry.mk a v)
      | None => Some (false, WriteSetEntry.mk a x)
      end.
Proof.
  apply (find_reports_last_write
           (reset (exec (new_WriteSet 4) [Insert 8 1; Insert 24 9]))
           [Insert 8 3; Insert 16 2; Find 8; Insert 8 5]).
  - apply Inv_reset, Inv_scenario. vm_compute. reflexivity.
  - vm_compute. reflexivity.
  - vm_compute. reflexivity.
  - vm_compute. reflexivity.
Defined.

Lemma commit_publishes_last_writes_witness :
  let ops := [Insert 8 3; Insert 16 2; Find 8; Insert 8 5] in
  let m0 : memory := fun _ => 0 in
  exists s n,
    run (new_WriteSet 4) ops = Some (s, n) /\
    (forall a, a mod 8 = 0 ->
       load (writeback s m0) a =
       match last_write ops a with Some v => v | None => load m0 a end) /\
    validate s (writeback s m0) = true.
Proof.
  apply (commit_publishes_last_writes (new_WriteSet 4)
           [Insert 8 3; Insert 16 2; Find 8; Insert 8 5] (fun _ => 0)).
  - apply Inv_new; lia.
  - vm_compute. reflexivity.
  - vm_compute. reflexivity.
  - vm_compute. reflexivity.
  - repeat constructor; simpl; lia.
Defined.

Lemma writeback_last_entry_wins_witness :
  let ws := exec (new_WriteSet 4)
              [Insert 8 1; Remove 8; Insert 8 2; Insert 16 3] in
  let m0 : memory := fun _ => 0 in
  load (writeback ws m0) 8 =
  match last_value (entries ws) 8 with Some v => v | None => load m0 8 end /\
  (forall v, last_value (entries ws) 8 = Some v ->
             WriteSetEntry.mk 8 v ∈ entries ws) /\
  (last_value (entries ws) 8 = None ->
   8 ∉ WriteSetEntry.addr <$> entries ws).
Proof.
  apply (writeback_last_entry_wins
           (exec (new_WriteSet 4)
              [Insert 8 1; Remove 8; Insert 8 2; Insert 16 3])
           (fun _ => 0) 8).
  - change (Forall (fun e => WriteSetEntry.addr e = 8 \/
                             apart (WriteSetEntry.addr e) 8)
              [WriteSetEntry.mk 8 1; WriteSetEntry.mk 8 2;
               WriteSetEntry.mk 16 3]).
    unfold apart.
    constructor; [left; reflexivity|]. constructor; [left; reflexivity|].
    constructor; [right; simpl; lia|]. constructor.
  - change (Forall (fun e => 0 <= WriteSetEntry.val e < 2 ^ 64)
              [WriteSetEntry.mk 8 1; WriteSetEntry.mk 8 2;
               WriteSetEntry.mk 16 3]).
    repeat constructor; simpl; lia.
Defined.

Lemma remove_then_insert_appends_entry_witness :
  let ws := exec (new_WriteSet 4) [Insert 72 1; Insert 80 2; Remove 72] in
  exists ws1 ws2 (k : nat) v_old,
    remove ws (WriteSetEntry.mk 80 99) = Some ws1 /\
    insert ws1 (WriteSetEntry.mk 80 99) = Some (ws2, false) /\
    size ws2 = size ws + 1 /\
    entries ws2 = entries ws ++ [WriteSetEntry.mk 80 99] /\
    (k < Z.to_nat (lsize ws))%nat /\
    entries ws !! k = Some (WriteSetEntry.mk 80 v_old) /\
    writeback_stores (entries ws2) !! k = Some (80, v_old) /\
    writeback_stores (entries ws2) !! Z.to_nat (lsize ws) = Some (80, 99) /\
    length (writeback_stores (entries ws2)) = S (Z.to_nat (lsize ws)) /\
    (forall m, load (writeback ws2 m) 80 = 99) /\
    ((lsize ws + 1) * 3 < ilength ws ->
     forall x, find ws2 (WriteSetEntry.mk 80 x)
               = Some (true, WriteSetEntry.mk 80 99)).
Proof.
  apply (remove_then_insert_appends_entry
           (exec (new_WriteSet 4) [Insert 72 1; Insert 80 2; Remove 72])
           80 99 8%nat (index_t.mk 1 80 1)).
  - apply Inv_scenario. vm_compute. reflexivity.
  - vm_compute. reflexivity.
  - lia.
  - vm_compute. reflexivity.
  - vm_compute. reflexivity.
  - reflexivity.
Defined.

Lemma insert_keeps_other_bindings_witness :
  let ws := exec (new_WriteSet 4) [Insert 16 2] in
  let ws' := exec ws [Insert 8 1] in
  find ws' (WriteSetEntry.mk 16 0) = find ws (WriteSetEntry.mk 16 0) /\
  find ws' (WriteSetEntry.mk 8 0) = Some (true, WriteSetEntry.mk 8 1).
Proof.
  apply (insert_keeps_other_bindings
           (exec (new_WriteSet 4) [Insert 16 2])
           (exec (exec (new_WriteSet 4) [Insert 16 2]) [Insert 8 1])
           8 1 16 0 false).
  - apply Inv_scenario. vm_compute. reflexivity.
  - intros k e He.
    assert (k = 0%nat /\ e = WriteSetEntry.mk 16 2) as [-> ->].
    { destruct k as [|k]; [by injection He as <-|done]. }
    exists 14, (index_t.mk 1 16 0). vm_compute. repeat split.
  - vm_compute. reflexivity.
  - vm_compute. reflexivity.
  - discriminate.
Defined.
